(** * Agentic-RAG-System: the citation display of the chat front end

    The development embeds the citation code of the React front end: the
    grouping of [msg.sources] into reference cards in the chat window
    (src/unnamed/part_000, the block that builds [groupedSources]) and the
    labels of the source chips (src/frontend/src/components/ChatMessage.jsx).
    The retriever's score and the generation orchestrator belong to the
    Python back end, which is not among the sources; they are modelled from
    the written specification.

    JavaScript strings are sequences of UTF-16 code units; a code unit is
    a number of type [N]. *)

From Stdlib Require Import List Arith NArith Bool Lia String Ascii QArith.
From Stdlib Require Import Permutation Sorted.
Import ListNotations.
Close Scope Q_scope.

Set Implicit Arguments.

(** ** JavaScript strings *)

Module JS.

Local Open Scope N_scope.

(** A UTF-16 code unit and a JavaScript string. *)
Definition cu := N.
Definition jsstring := list cu.

(** Code units of an ASCII literal of the development. *)
Fixpoint lit (s : string) : jsstring :=
  match s with
  | EmptyString => []
  | String a s' => N_of_ascii a :: lit s'
  end.

Definition cu_eqb (a b : cu) : bool := N.eqb a b.

Fixpoint str_eqb (s t : jsstring) : bool :=
  match s, t with
  | [], [] => true
  | a :: s', b :: t' => cu_eqb a b && str_eqb s' t'
  | _, _ => false
  end.

(** ECMAScript LineTerminator: LF, CR, LS, PS. *)
Definition is_line_terminator (c : cu) : bool :=
  (c =? 10) || (c =? 13) || (c =? 8232) || (c =? 8233).

(** ECMAScript WhiteSpace: TAB, VT, FF, ZWNBSP and the category Zs. *)
Definition is_white_space (c : cu) : bool :=
  (c =? 9) || (c =? 11) || (c =? 12) || (c =? 32) || (c =? 160)
  || (c =? 5760) || ((8192 <=? c) && (c <=? 8202)) || (c =? 8239)
  || (c =? 8287) || (c =? 12288) || (c =? 65279).

(** The class [\s] of a regular expression, which is also the set that
    [String.prototype.trim] strips. *)
Definition is_space (c : cu) : bool :=
  is_white_space c || is_line_terminator c.

(** The class [\d]. *)
Definition is_digit (c : cu) : bool := (48 <=? c) && (c <=? 57).

(** The atom [.] without the [s] flag. *)
Definition dot (c : cu) : bool := negb (is_line_terminator c).

(** Canonicalize of a case-insensitive pattern without the [u] flag,
    on the ASCII range: a code unit of 128 or more is never mapped into the
    ASCII range, so against an ASCII pattern character only its two ASCII
    cases match. *)
Definition canonicalize (c : cu) : cu :=
  if (97 <=? c) && (c <=? 122) then c - 32 else c.

Definition chr_i (a : ascii) (c : cu) : bool :=
  (c <? 128) && cu_eqb (canonicalize c) (canonicalize (N_of_ascii a)).

Definition chr (a : ascii) (c : cu) : bool := cu_eqb c (N_of_ascii a).

Fixpoint dropWhile (p : cu -> bool) (s : jsstring) : jsstring :=
  match s with
  | [] => []
  | a :: s' => if p a then dropWhile p s' else s
  end.

Fixpoint takeWhile (p : cu -> bool) (s : jsstring) : jsstring :=
  match s with
  | [] => []
  | a :: s' => if p a then a :: takeWhile p s' else []
  end.

Definition trimStart (s : jsstring) : jsstring := dropWhile is_space s.
Definition trimEnd (s : jsstring) : jsstring :=
  rev (dropWhile is_space (rev s)).

(** [s.trim()] *)
Definition trim (s : jsstring) : jsstring := trimEnd (trimStart s).

(** [s.includes(c)] for a one-character string [c]. *)
Definition includes (p : cu -> bool) (s : jsstring) : bool := existsb p s.

(** [s.split(sep)] where the separator matches exactly one code unit of
    the set [p]: the pieces between the separators, never an empty array. *)
Fixpoint split (p : cu -> bool) (s : jsstring) : list jsstring :=
  match s with
  | [] => [[]]
  | a :: s' =>
      if p a then [] :: split p s'
      else match split p s' with
           | [] => [[a]]
           | w :: ws => (a :: w) :: ws
           end
  end.

(** [arr[0]] and [arr.pop()] of a non-empty array of strings. *)
Definition first (l : list jsstring) : jsstring := hd [] l.
Definition pop (l : list jsstring) : jsstring := last l [].

Fixpoint startsWith (pre s : jsstring) : option jsstring :=
  match pre, s with
  | [], _ => Some s
  | a :: pre', b :: s' => if cu_eqb a b then startsWith pre' s' else None
  | _ :: _, [] => None
  end.

(** [s.replace(pat, '')] with a string pattern: the first occurrence of
    [pat] is removed, a string without an occurrence is returned as it is. *)
Fixpoint replace_first (pat s : jsstring) : jsstring :=
  match startsWith pat s with
  | Some rest => rest
  | None => match s with
            | [] => []
            | a :: s' => a :: replace_first pat s'
            end
  end.

End JS.

(** ** Backtracking regular expressions

    The fragment of ECMAScript patterns that the citation code uses, with
    the backtracking order of the language: a matcher takes the rest of the
    input, the captures so far and a continuation, and returns the first
    success in priority order. *)

Module Regex.

Import JS.

Inductive regex : Type :=
| Class (p : cu -> bool)        (* one code unit of a set: a literal, [\s], [\d], [.] *)
| Seq (r1 r2 : regex)           (* r1 r2 *)
| Opt (r : regex)               (* r?   greedy *)
| Star (p : cu -> bool)         (* p*   greedy, over a one-unit set *)
| LazyStar (p : cu -> bool)     (* p*?  lazy, over a one-unit set *)
| Group (i : nat) (r : regex)   (* (r)  capturing group number i *)
| Eos.                          (* $    without the m flag *)

(** [p+] is [p p*], and [(?:r)] only groups. *)
Definition Plus (p : cu -> bool) : regex := Seq (Class p) (Star p).
Definition NonCapture (r : regex) : regex := r.

Definition captures := list (nat * jsstring).
Definition cont := jsstring -> captures -> option captures.

Definition orElse (a : option captures) (b : unit -> option captures) :=
  match a with
  | Some c => Some c
  | None => b tt
  end.

(** The text consumed between the input [x] and its suffix [x']. *)
Definition consumed (x x' : jsstring) : jsstring :=
  firstn (List.length x - List.length x') x.

Fixpoint star_greedy (p : cu -> bool) (x : jsstring) (c : captures)
    (k : cont) : option captures :=
  match x with
  | a :: x' =>
      if p a then orElse (star_greedy p x' c k) (fun _ => k x c) else k x c
  | [] => k x c
  end.

Fixpoint star_lazy (p : cu -> bool) (x : jsstring) (c : captures)
    (k : cont) : option captures :=
  orElse (k x c)
    (fun _ => match x with
              | a :: x' => if p a then star_lazy p x' c k else None
              | [] => None
              end).

Fixpoint m (r : regex) (x : jsstring) (c : captures) (k : cont)
    : option captures :=
  match r with
  | Class p =>
      match x with
      | a :: x' => if p a then k x' c else None
      | [] => None
      end
  | Seq r1 r2 => m r1 x c (fun x' c' => m r2 x' c' k)
  | Opt r' => orElse (m r' x c k) (fun _ => k x c)
  | Star p => star_greedy p x c k
  | LazyStar p => star_lazy p x c k
  | Group i r' => m r' x c (fun x' c' => k x' ((i, consumed x x') :: c'))
  | Eos => match x with [] => k x c | _ :: _ => None end
  end.

(** [RegExp.prototype.exec] without the [g] and [y] flags: the pattern is
    tried at index 0, then 1, ... up to the length of the input. *)
Fixpoint exec (r : regex) (x : jsstring) : option captures :=
  orElse (m r x [] (fun _ c => Some c))
    (fun _ => match x with
              | [] => None
              | _ :: x' => exec r x'
              end).

Fixpoint capture (i : nat) (c : captures) : jsstring :=
  match c with
  | [] => []
  | (j, v) :: c' => if Nat.eqb i j then v else capture i c'
  end.

(** A literal word under the [i] flag. *)
Fixpoint word_i (s : string) : regex -> regex :=
  match s with
  | EmptyString => fun r => r
  | String a s' => fun r => Seq (Class (chr_i a)) (word_i s' r)
  end.

End Regex.

(** ** The citation grouping of the chat window (src/unnamed/part_000) *)

Module Citations.

Import JS Regex.
Local Open Scope N_scope.

(** [sourceString.replace(/^\[Source:\s*/, '')] *)
Definition strip_open (s : jsstring) : jsstring :=
  match startsWith (lit "[Source:") s with
  | Some rest => dropWhile is_space rest
  | None => s
  end.

(** [.replace(/\]$/, '')] *)
Definition strip_close (s : jsstring) : jsstring :=
  match rev s with
  | c :: r => if chr "]" c then rev r else s
  | [] => s
  end.

(** [let cleanSource = sourceString.replace(..).replace(..).trim()] *)
Definition cleanSource (sourceString : jsstring) : jsstring :=
  trim (strip_close (strip_open sourceString)).

(** The part [(?:,?\s*\(?Page\s*(\d+)\)?)$] of the pattern. *)
Definition pageTail : regex :=
  NonCapture
    (Seq (Opt (Class (chr ",")))
    (Seq (Star is_space)
    (Seq (Opt (Class (chr "(")))
    (word_i "Page"
    (Seq (Star is_space)
    (Seq (Group 2 (Plus is_digit))
    (Seq (Opt (Class (chr ")")))
     Eos))))))).

(** [/(.*?)(?:,?\s*\(?Page\s*(\d+)\)?)$/i] *)
Definition pageRe : regex := Seq (Group 1 (LazyStar dot)) pageTail.

(** [filename.match(pageRe)]: the groups 1 and 2 of the first match. *)
Definition pageMatch (filename : jsstring) : option (jsstring * jsstring) :=
  match exec pageRe filename with
  | Some c => Some (capture 1 c, capture 2 c)
  | None => None
  end.

Definition is_comma (c : cu) : bool := chr "," c.
Definition is_sep (c : cu) : bool := chr "/" c || chr "\" c.

(** File name and page of one source string, before the path is removed. *)
Definition parse (sourceString : jsstring) : jsstring * option jsstring :=
  let cleanSource := cleanSource sourceString in
  match pageMatch cleanSource with
  | Some (g1, g2) => (trim g1, Some g2)
  | None =>
      if includes is_comma cleanSource
      then (trim (first (split is_comma cleanSource)), None)
      else (cleanSource, None)
  end.

(** [if (filename.includes('/') || filename.includes('\\'))
       filename = filename.split(/[/\\]/).pop()] *)
Definition strip_path (filename : jsstring) : jsstring :=
  if includes (chr "/") filename || includes (chr "\") filename
  then pop (split is_sep filename)
  else filename.

(** The key and the page that one source string contributes. *)
Definition keyOf (sourceString : jsstring) : jsstring :=
  strip_path (fst (parse sourceString)).
Definition pageOf (sourceString : jsstring) : option jsstring :=
  snd (parse sourceString).

(** *** The object [groupedSources]

    An entry is the object [{ pages: new Set(), original: sourceString }];
    the [Set] of page strings is the list of its members in insertion
    order.  The object [groupedSources] is the list of its own properties
    in the order of their creation; it is created by [{}], so a property
    that it does not own is looked up in [Object.prototype]. *)

Record entry : Type := { pages : list jsstring; original : jsstring }.

Definition object := list (jsstring * entry).

(** The property names of [Object.prototype] (with Annex B); each holds a
    function, and [__proto__] reads as [Object.prototype] itself. *)
Definition Object_prototype : list jsstring :=
  map lit
    ["constructor"; "hasOwnProperty"; "isPrototypeOf";
     "propertyIsEnumerable"; "toLocaleString"; "toString"; "valueOf";
     "__proto__"; "__defineGetter__"; "__defineSetter__";
     "__lookupGetter__"; "__lookupSetter__"]%string.

Definition inherited (key : jsstring) : bool :=
  existsb (str_eqb key) Object_prototype.

Inductive value : Type :=
| VUndefined
| VEntry (e : entry)     (* an own entry of [groupedSources] *)
| VBuiltin.              (* a member of [Object.prototype] *)

Fixpoint own (o : object) (key : jsstring) : option entry :=
  match o with
  | [] => None
  | (k, e) :: o' => if str_eqb key k then Some e else own o' key
  end.

(** [groupedSources[key]] *)
Definition get (o : object) (key : jsstring) : value :=
  match own o key with
  | Some e => VEntry e
  | None => if inherited key then VBuiltin else VUndefined
  end.

Definition truthy (v : value) : bool :=
  match v with
  | VUndefined => false
  | _ => true
  end.

(** Assignment to an own property: an existing property keeps its
    place, a new one is created last. *)
Fixpoint set (o : object) (key : jsstring) (e : entry) : object :=
  match o with
  | [] => [(key, e)]
  | (k, e') :: o' =>
      if str_eqb key k then (k, e) :: o' else (k, e') :: set o' key e
  end.

(** [pages.add(page)] *)
Definition Set_add (page : jsstring) (s : list jsstring) : list jsstring :=
  if existsb (str_eqb page) s then s else s ++ [page].

(** A string is truthy when it is not empty; [null] is falsy. *)
Definition truthy_page (page : option jsstring) : option jsstring :=
  match page with
  | Some ((_ :: _) as p) => Some p
  | _ => None
  end.

(** One call of the callback of [msg.sources.forEach]; [None] is the
    [TypeError] of reading [.add] of [undefined]. *)
Definition step (o : object) (sourceString : jsstring) : option object :=
  let filename := keyOf sourceString in
  let o1 :=
    if negb (truthy (get o filename))
    then set o filename {| pages := []; original := sourceString |}
    else o in
  match truthy_page (pageOf sourceString) with
  | Some page =>
      match get o1 filename with
      | VEntry e =>
          Some (set o1 filename
                  {| pages := Set_add page (pages e); original := original e |})
      | _ => None
      end
  | None => Some o1
  end.

Fixpoint forEach (sources : list jsstring) (o : object) : option object :=
  match sources with
  | [] => Some o
  | s :: rest =>
      match step o s with
      | Some o' => forEach rest o'
      | None => None
      end
  end.

Definition groupedSources (sources : list jsstring) : option object :=
  forEach sources [].

(** *** [Object.keys]

    Own keys that are array indices (canonical decimal strings below
    [2^32 - 1]) come first in ascending numeric order, then the other keys
    in the order of their creation. *)

Definition digit_value (c : cu) : N := c - 48.

Definition decimal (s : jsstring) : N :=
  fold_left (fun acc c => 10 * acc + digit_value c) s 0.

Definition array_index (key : jsstring) : option N :=
  match key with
  | [] => None
  | c :: rest =>
      if forallb is_digit key
         && (negb (cu_eqb c 48) || match rest with [] => true | _ => false end)
         && (decimal key <? 4294967295)
      then Some (decimal key)
      else None
  end.

Definition is_index (key : jsstring) : bool :=
  match array_index key with Some _ => true | None => false end.

Definition index_of (key : jsstring) : N :=
  match array_index key with Some n => n | None => 0 end.

Fixpoint insert_index (key : jsstring) (l : list jsstring) : list jsstring :=
  match l with
  | [] => [key]
  | k :: l' =>
      if index_of key <=? index_of k then key :: l
      else k :: insert_index key l'
  end.

Definition sort_index (l : list jsstring) : list jsstring :=
  fold_right insert_index [] l.

Definition Object_keys (o : object) : list jsstring :=
  let keys := map fst o in
  sort_index (filter is_index keys)
  ++ filter (fun k => negb (is_index k)) keys.

(** [const uniqueFileCount = Object.keys(groupedSources).length] *)
Definition uniqueFileCount (o : object) : nat :=
  List.length (Object_keys o).

(** *** The page list of a card

    [Number(a)] of a string of decimal digits is the double nearest to its
    value (ties to even), or [Infinity]; the engines round so, although
    the language allows an approximation beyond 20 significant digits. *)

Inductive number : Type :=
| Finite (n : N)
| Infinity.

Definition round_double (n : N) : number :=
  if n <? 2 ^ 53 then Finite n
  else
    let e := N.log2 n - 52 in
    let q := N.shiftr n e in
    let r := n mod 2 ^ e in
    let h := 2 ^ (e - 1) in
    let q' := if (h <? r) || ((r =? h) && N.odd q) then q + 1 else q in
    let v := q' * 2 ^ e in
    if 2 ^ 1024 <=? v then Infinity else Finite v.

Definition Number (s : jsstring) : number := round_double (decimal s).

(** The comparator [(a, b) => Number(a) - Number(b)] is negative exactly
    when [Number(a)] is below [Number(b)]; [Infinity - Infinity] is [NaN],
    which the sort reads as [+0]. *)
Definition number_ltb (x y : number) : bool :=
  match x, y with
  | Finite a, Finite b => a <? b
  | Finite _, Infinity => true
  | Infinity, _ => false
  end.

Definition before (a b : jsstring) : bool :=
  number_ltb (Number a) (Number b).

(** [Array.prototype.sort] is stable: an element stays in front of the
    later elements that the comparator does not put before it. *)
Fixpoint insert_page (a : jsstring) (l : list jsstring) : list jsstring :=
  match l with
  | [] => [a]
  | b :: l' => if before b a then b :: insert_page a l' else a :: l
  end.

Definition sort_pages (l : list jsstring) : list jsstring :=
  fold_right insert_page [] l.

Fixpoint join (sep : jsstring) (l : list jsstring) : jsstring :=
  match l with
  | [] => []
  | [a] => a
  | a :: l' => a ++ sep ++ join sep l'
  end.

(** One card of the grid: the file name, the sorted pages and the label. *)
Record card : Type :=
  { card_filename : jsstring; card_pages : list jsstring;
    card_label : jsstring }.

Definition pages_of (o : object) (filename : jsstring) : list jsstring :=
  match own o filename with
  | Some e => pages e
  | None => []
  end.

Definition render_card (o : object) (filename : jsstring) : card :=
  let pages := sort_pages (pages_of o filename) in
  {| card_filename := filename;
     card_pages := pages;
     card_label :=
       match pages with
       | [] => lit "Source Document"
       | _ :: _ => lit "Page " ++ join (lit ", ") pages
       end |}.

(** [Object.keys(groupedSources).map(...)] *)
Definition cards (o : object) : list card :=
  map (render_card o) (Object_keys o).

End Citations.

(** ** The staged parser of the specification *)

Module Staged.

Import JS Citations.

Definition skip1 (p : cu -> bool) (s : jsstring) : jsstring :=
  match s with
  | a :: s' => if p a then s' else s
  | [] => s
  end.

(** The word "Page" in any case, at the front of [s]. *)
Definition page_word (s : jsstring) : option jsstring :=
  match s with
  | a1 :: a2 :: a3 :: a4 :: s' =>
      if chr_i "P" a1 && chr_i "a" a2 && chr_i "g" a3 && chr_i "e" a4
      then Some s' else None
  | _ => None
  end.

(** A page indicator that makes up all of [t]: an optional comma, blanks,
    an optional opening parenthesis, "Page", blanks, the digits of the
    number, an optional closing parenthesis.  The result is the number as
    it is written. *)
Definition indicator (t : jsstring) : option jsstring :=
  let t := skip1 is_comma t in
  let t := dropWhile is_space t in
  let t := skip1 (chr "(") t in
  match page_word t with
  | None => None
  | Some t =>
      let t := dropWhile is_space t in
      match takeWhile is_digit t with
      | [] => None
      | (_ :: _) as n =>
          match skip1 (chr ")") (dropWhile is_digit t) with
          | [] => Some n
          | _ :: _ => None
          end
      end
  end.

(** The longest suffix that is a page indicator: the text in front of it
    and the number. *)
Fixpoint find_indicator (s : jsstring) : option (jsstring * jsstring) :=
  match indicator s with
  | Some n => Some ([], n)
  | None =>
      match s with
      | [] => None
      | a :: s' =>
          match find_indicator s' with
          | Some (pre, n) => Some (a :: pre, n)
          | None => None
          end
      end
  end.

(** The text in front of the first comma. *)
Definition before_comma (s : jsstring) : jsstring :=
  takeWhile (fun c => negb (is_comma c)) s.

(** The three stages in the words of the specification: the trailing page
    pattern, else the first comma, else the whole string. *)
Definition staged_as_stated (sourceString : jsstring)
    : jsstring * option jsstring :=
  let s := cleanSource sourceString in
  match find_indicator s with
  | Some (pre, n) => (trim pre, Some n)
  | None =>
      if includes is_comma s then (before_comma s, None) else (s, None)
  end.

(** The same stages, with the text in front of the comma trimmed too. *)
Definition staged (sourceString : jsstring) : jsstring * option jsstring :=
  let s := cleanSource sourceString in
  match find_indicator s with
  | Some (pre, n) => (trim pre, Some n)
  | None =>
      if includes is_comma s then (trim (before_comma s), None) else (s, None)
  end.

End Staged.

(** ** Auxiliary notions of the proofs *)

Module Scan.

Import JS Regex Citations Staged.

(** The end of the pattern: [\)?$] and [(\d+)\)?$]. *)
Definition close : regex := Seq (Opt (Class (chr ")"))) Eos.
Definition number_close : regex := Seq (Group 2 (Plus is_digit)) close.

(** What the lazy group 1 finds from one start index: the shortest text
    without a line terminator that is followed by a page indicator. *)
Fixpoint line_scan (s : jsstring) : option (jsstring * jsstring) :=
  match indicator s with
  | Some n => Some ([], n)
  | None =>
      match s with
      | a :: s' =>
          if dot a
          then match line_scan s' with
               | Some (pre, n) => Some (a :: pre, n)
               | None => None
               end
          else None
      | [] => None
      end
  end.

(** The first start index from which the pattern matches. *)
Fixpoint exec_scan (s : jsstring) : option (jsstring * jsstring) :=
  match line_scan s with
  | Some r => Some r
  | None =>
      match s with
      | [] => None
      | _ :: s' => exec_scan s'
      end
  end.

(** The text after the last line terminator. *)
Fixpoint last_line (s : jsstring) : jsstring :=
  if forallb dot s then s
  else match s with
       | [] => []
       | _ :: s' => last_line s'
       end.

End Scan.

Module Grouping.

Import JS Citations.
Local Open Scope N_scope.

(** Membership among strings. *)
Definition mem (k : jsstring) (l : list jsstring) : bool :=
  existsb (str_eqb k) l.

(** The first occurrences of the members of a list, in order. *)
Fixpoint uniq (l : list jsstring) : list jsstring :=
  match l with
  | [] => []
  | k :: l' => k :: filter (fun x => negb (str_eqb x k)) (uniq l')
  end.

(** A key that the loop has to create: not inherited and not yet seen. *)
Definition fresh (seen : list jsstring) (k : jsstring) : bool :=
  negb (inherited k) && negb (mem k seen).

(** Ascending order of array indices. *)
Definition index_le (a b : jsstring) : Prop := index_of a <= index_of b.

(** [a] is not after [b] in the order of the comparator. *)
Definition number_le (a b : jsstring) : Prop := before b a = false.

(** Every entry holds a set: no page string twice. *)
Definition distinct_pages (o : object) : Prop :=
  Forall (fun ke => NoDup (pages (snd ke))) o.

End Grouping.

(** ** The source chips (src/frontend/src/components/ChatMessage.jsx) *)

Module Chips.

Import JS.

Definition opening : jsstring := lit "[Source: ".
Definition closing : jsstring := lit "]".

(** [source.replace('[Source: ', '').replace(']', '')] *)
Definition chipLabel (source : jsstring) : jsstring :=
  replace_first closing (replace_first opening source).

(** [s.indexOf(pat)] *)
Fixpoint indexOf (pat s : jsstring) : option nat :=
  match startsWith pat s with
  | Some _ => Some 0%nat
  | None =>
      match s with
      | [] => None
      | _ :: s' => option_map S (indexOf pat s')
      end
  end.

(** The string without its [n] code units from index [i] on. *)
Fixpoint delete (i n : nat) (s : jsstring) : jsstring :=
  match i with
  | O => skipn n s
  | S i' =>
      match s with
      | [] => []
      | a :: s' => a :: delete i' n s'
      end
  end.

(** The label in the words of the claim: the first occurrence of the
    opening text and the first occurrence of the closing bracket, both
    located in the given string, are removed, the later one first so that
    the index of the other still holds. *)
Definition first_occurrences_removed (s : jsstring) : jsstring :=
  match indexOf opening s, indexOf closing s with
  | None, None => s
  | Some i, None => delete i 9 s
  | None, Some j => delete j 1 s
  | Some i, Some j =>
      if Nat.ltb j i then delete j 1 (delete i 9 s)
      else delete i 9 (delete j 1 s)
  end.

End Chips.

(** ** The retriever's similarity score *)

Module Retriever.

Local Open Scope Q_scope.

(** Modelled from the spec: the retriever of the Python back end is not
    among the sources; the specification derives the similarity score of a
    candidate as [1 / (1 + distance)] from the distance that the vector
    store reports.  The score is taken over the rationals. *)
Definition similarityScore (distance : Q) : Q := 1 / (1 + distance).

End Retriever.

(** ** The generation orchestrator *)

Module Orchestrator.

Definition prompt := string.
Definition text := string.

(** Modelled from the spec: the outcome of one provider attempt of the
    absent Python back end, success with the answer text or failure with a
    reason (transport error, rate limit, malformed or empty response).
    Streaming is left out. *)
Inductive outcome : Type :=
| Success (answer : text)
| Failure (reason : string).

(** Modelled from the spec: a generation provider of the absent back end,
    a variant with the common capability [attempt(prompt) -> outcome]. *)
Record provider : Type :=
  { providerName : string; attempt : prompt -> outcome }.

(** Modelled from the spec: the states of the orchestrator of the absent
    back end, [Idle -> AttemptingProvider(i) -> Succeeded |
    AttemptingProvider(i+1) | ExhaustedFailed]. *)
Inductive state : Type :=
| Idle
| AttemptingProvider (i : nat)
| Succeeded (answer : text)
| ExhaustedFailed.

(** Modelled from the spec: the machine of one query with its
    GenerationAttempt, the ordered list of the provider calls made so far
    and their outcomes. *)
Record machine : Type :=
  { st : state; attempts : list (string * outcome) }.

(** Modelled from the spec: one transition of the orchestrator of the
    absent back end.  The providers are tried in their configured order;
    an attempt is one call of the provider; a failure moves on to the next
    provider, and the failure of the last one ends in [ExhaustedFailed]. *)
Definition step (providers : list provider) (p : prompt) (mc : machine)
    : option machine :=
  match st mc with
  | Idle =>
      Some {| st := match providers with
                    | [] => ExhaustedFailed
                    | _ :: _ => AttemptingProvider 0
                    end;
              attempts := attempts mc |}
  | AttemptingProvider i =>
      match nth_error providers i with
      | None => Some {| st := ExhaustedFailed; attempts := attempts mc |}
      | Some pr =>
          let r := attempt pr p in
          let log := attempts mc ++ [(providerName pr, r)] in
          match r with
          | Success a => Some {| st := Succeeded a; attempts := log |}
          | Failure _ =>
              Some {| st := if Nat.ltb (S i) (List.length providers)
                            then AttemptingProvider (S i)
                            else ExhaustedFailed;
                      attempts := log |}
          end
      end
  | Succeeded _ | ExhaustedFailed => None
  end.

(** Modelled from the spec: the transitions of the machine until a final
    state, at most [fuel] of them. *)
Fixpoint run (fuel : nat) (providers : list provider) (p : prompt)
    (mc : machine) : machine :=
  match fuel with
  | O => mc
  | S fuel' =>
      match step providers p mc with
      | Some mc' => run fuel' providers p mc'
      | None => mc
      end
  end.

(** Modelled from the spec: one query of the absent orchestrator.  The
    machine runs from [Idle]; two steps more than there are providers are
    enough to reach a final state. *)
Definition generate (providers : list provider) (p : prompt) : machine :=
  run (2 + List.length providers) providers p
    {| st := Idle; attempts := [] |}.

(** Modelled from the spec: the states in which a query is over. *)
Definition final (s : state) : bool :=
  match s with
  | Succeeded _ | ExhaustedFailed => true
  | _ => false
  end.

(** Modelled from the spec: [AllProvidersFailed] is raised when the list
    of providers is exhausted, the state [ExhaustedFailed]. *)
Definition raisesAllProvidersFailed (mc : machine) : bool :=
  match st mc with
  | ExhaustedFailed => true
  | _ => false
  end.

End Orchestrator.

(** ** Inputs of the examples *)

Module Examples.

Import JS Citations Orchestrator.
Local Open Scope N_scope.

Definition example_sources : list jsstring :=
  map lit ["[Source: report.pdf, Page 3]"; "[Source: report.pdf, Page 1]";
           "[Source: notes.txt]"]%string.

Definition spaced_comma : jsstring := lit "[Source: a ,b]".
Definition two_lines : jsstring :=
  lit "[Source: a" ++ 10 :: lit "b, Page 3]".

Definition path_sources : list jsstring :=
  map lit ["[Source: docs/2024\report.pdf, Page 2]"; "[Source: notes.txt]"]%string.

Definition path_object : object :=
  Eval vm_compute in
    match groupedSources path_sources with Some o => o | None => [] end.

Definition digit_sources : list jsstring :=
  map lit ["[Source: notes.txt]"; "[Source: 2024]"]%string.

Definition inherited_sources : list jsstring :=
  [lit "[Source: constructor]"].

Definition inherited_path_sources : list jsstring :=
  [lit "[Source: docs/constructor]"].

Definition zero_page_sources : list jsstring :=
  map lit ["[Source: a.pdf, Page 1]"; "[Source: a.pdf, Page 01]"]%string.

Definition failing : provider :=
  {| providerName := "gemini"; attempt := fun _ => Failure "rate limit" |}.
Definition answering : provider :=
  {| providerName := "openrouter"; attempt := fun q => Success q |}.

End Examples.

(** ** Global replacement with a pattern

    [s.replace(/r/g, template)]: the pattern is tried at index 0, 1, ...;
    a match is replaced and the search goes on behind it; the text between
    the matches is kept. *)

Module Replace.

Import JS Regex.

(** One attempt of the pattern at the current index; group 0 is the text
    of the match. *)
Definition match_here (r : regex) (x : jsstring) : option captures :=
  m r x [] (fun rest c => Some ((0, consumed x rest) :: c)).

(** What a pattern does at an index, given the code unit in front of the
    index and the rest of the string: the replacement and the length of
    the match. *)
Definition matcher := option cu -> jsstring -> option (jsstring * nat).

(** The loop of the replacement; [skip] code units of a match are still to
    be passed over.  After an empty match the search moves on by one. *)
Fixpoint replace_global (here : matcher) (skip : nat) (prev : option cu)
    (x : jsstring) : jsstring :=
  match x with
  | [] =>
      match skip with
      | O => match here prev [] with
             | Some (rep, _) => rep
             | None => []
             end
      | S _ => []
      end
  | a :: x' =>
      match skip with
      | S k => replace_global here k (Some a) x'
      | O =>
          match here prev x with
          | Some (rep, O) => rep ++ a :: replace_global here 0 (Some a) x'
          | Some (rep, S k) => rep ++ replace_global here k (Some a) x'
          | None => a :: replace_global here 0 (Some a) x'
          end
      end
  end.

Definition with_template (r : regex) (template : captures -> jsstring)
    : jsstring -> option (jsstring * nat) :=
  fun x =>
    match match_here r x with
    | Some c => Some (template c, List.length (capture 0 c))
    | None => None
    end.

(** [s.replace(/r/g, template)] *)
Definition replace_regex (r : regex) (template : captures -> jsstring)
    (s : jsstring) : jsstring :=
  replace_global (fun _ x => with_template r template x) 0 None s.

(** The assertion [^] under the [m] flag holds at index 0 and behind a
    line terminator. *)
Definition at_line_start (prev : option cu) : bool :=
  match prev with
  | None => true
  | Some c => is_line_terminator c
  end.

(** [s.replace(/^r/gm, template)] *)
Definition replace_line_start (r : regex) (template : captures -> jsstring)
    (s : jsstring) : jsstring :=
  replace_global
    (fun prev x => if at_line_start prev then with_template r template x
                   else None) 0 None s.

End Replace.

(** ** The formatting of an answer ([formatContent] of ChatMessage.jsx) *)

Module Format.

Import JS Regex Replace.
Local Open Scope N_scope.

Definition nl : cu := 10.
Definition is_nl (c : cu) : bool := cu_eqb c nl.
Definition not_nl (c : cu) : bool := negb (is_nl c).        (* [^\n] *)
Definition is_star (c : cu) : bool := chr "*" c.
Definition not_star (c : cu) : bool := negb (is_star c).    (* [^*] *)
Definition is_colon (c : cu) : bool := chr ":" c.
Definition is_dot (c : cu) : bool := chr "." c.
Definition is_hash (c : cu) : bool := chr "#" c.
(** The class of "-" and the bullet U+2022. *)
Definition is_bullet (c : cu) : bool := chr "-" c || cu_eqb c 8226.

(** [([^\n])(g2)] *)
Definition after_char (g2 : regex) : regex :=
  Seq (Group 1 (Class not_nl)) (Group 2 g2).

(** [\*\*[^*]+:\*\*] *)
Definition bold_colon_inside : regex :=
  Seq (Class is_star) (Seq (Class is_star) (Seq (Plus not_star)
    (Seq (Class is_colon) (Seq (Class is_star) (Class is_star))))).

(** [\*\*[^*]+\*\*:] *)
Definition bold_colon_outside : regex :=
  Seq (Class is_star) (Seq (Class is_star) (Seq (Plus not_star)
    (Seq (Class is_star) (Seq (Class is_star) (Class is_colon))))).

(** [\d+\.\s] *)
Definition numbered : regex :=
  Seq (Plus is_digit) (Seq (Class is_dot) (Class is_space)).

(** [[-•]\s] *)
Definition bullet : regex := Seq (Class is_bullet) (Class is_space).

(** [#{1,6}]: one "#", then greedily up to five more. *)
Definition hashes : regex :=
  Seq (Class is_hash) (Opt (Seq (Class is_hash) (Opt (Seq (Class is_hash)
    (Opt (Seq (Class is_hash) (Opt (Seq (Class is_hash)
      (Opt (Class is_hash)))))))))).

(** [#{1,6}\s] *)
Definition header : regex := Seq hashes (Class is_space).

(** [\n{3,}]: three line feeds, then greedily more. *)
Definition newlines3 : regex :=
  Seq (Class is_nl) (Seq (Class is_nl) (Plus is_nl)).

(** The templates ['$1\n\n$2'] and ['$1\n$2'], and a constant. *)
Definition groups_with (sep : jsstring) (c : captures) : jsstring :=
  capture 1 c ++ sep ++ capture 2 c.
Definition constant (t : jsstring) (_ : captures) : jsstring := t.

(** The replacements of [formatContent], in their order. *)
Definition format_steps (content : jsstring) : jsstring :=
  let formatted := content in
  let formatted :=
    replace_regex (after_char bold_colon_inside) (groups_with [nl; nl]) formatted in
  let formatted :=
    replace_regex (after_char bold_colon_outside) (groups_with [nl; nl]) formatted in
  let formatted :=
    replace_regex (after_char numbered) (groups_with [nl]) formatted in
  let formatted :=
    replace_regex (after_char bullet) (groups_with [nl]) formatted in
  let formatted :=
    replace_line_start bullet (constant (lit "- ")) formatted in
  let formatted :=
    replace_regex (after_char header) (groups_with [nl; nl]) formatted in
  let formatted :=
    replace_regex newlines3 (constant [nl; nl]) formatted in
  trim formatted.

(** [formatContent(content)]; [None] is a missing content. *)
Definition formatContent (content : option jsstring) : jsstring :=
  match content with
  | None => []
  | Some [] => []
  | Some s => format_steps s
  end.

End Format.

(** ** Code blocks and the context preview *)

Module CodeBlock.

Import JS Regex.
Local Open Scope N_scope.

(** The class [\w]. *)
Definition is_word (c : cu) : bool :=
  ((65 <=? c) && (c <=? 90)) || ((97 <=? c) && (c <=? 122))
  || is_digit c || (c =? 95).

(** A literal word of a pattern without the [i] flag. *)
Fixpoint literal (s : string) : regex -> regex :=
  match s with
  | EmptyString => fun r => r
  | String a s' => fun r => Seq (Class (chr a)) (literal s' r)
  end.

(** [/language-(\w+)/] *)
Definition languageRe : regex := literal "language-" (Group 1 (Plus is_word)).

(** [const match = /language-(\w+)/.exec(className || '');
     const language = match ? match[1] : null] *)
Definition language (className : option jsstring) : option jsstring :=
  match exec languageRe (match className with Some s => s | None => [] end) with
  | Some c => Some (capture 1 c)
  | None => None
  end.

(** [msg.context.length > 500 ? msg.context.substring(0, 500) + "..."
     : msg.context] *)
Definition contextPreview (context : jsstring) : jsstring :=
  if Nat.ltb 500 (List.length context)
  then firstn 500 context ++ lit "..."
  else context.

End CodeBlock.

(** ** Notions for the properties of the formatting *)

Module FormatSpec.

Import JS Regex Format.
Local Open Scope N_scope.

(** A pattern without a capturing group. *)
Fixpoint group_free (r : regex) : Prop :=
  match r with
  | Seq r1 r2 => group_free r1 /\ group_free r2
  | Opt r' => group_free r'
  | Group _ _ => False
  | _ => True
  end.

(** Every match of the pattern contains a code unit of the set [p]. *)
Fixpoint needs (p : cu -> bool) (r : regex) : Prop :=
  match r with
  | Class q => forall a, q a = true -> p a = true
  | Seq r1 r2 => needs p r1 \/ needs p r2
  | Group _ r' => needs p r'
  | _ => False
  end.

(** A string without a code unit of the set [p]. *)
Definition free_of (p : cu -> bool) (s : jsstring) : bool :=
  forallb (fun c => negb (p c)) s.

(** The code units that are not white space. *)
Definition visible (s : jsstring) : jsstring :=
  filter (fun c => negb (is_space c)) s.

(** What may stand in the result where the code unit [a] stood in the
    content: [a] itself, or "-" where [a] is the bullet U+2022. *)
Definition kept (a b : cu) : Prop := b = a \/ (a = 8226 /\ b = 45).

(** The number of line feeds at the front. *)
Definition lead (s : jsstring) : nat := List.length (takeWhile is_nl s).

(** No three line feeds in a row. *)
Fixpoint no3 (s : jsstring) : bool :=
  match s with
  | [] => true
  | a :: s' => Nat.leb (lead s) 2 && no3 s'
  end.

(** The characters that start a markdown construct for [formatContent]. *)
Definition is_markup (c : cu) : bool :=
  is_star c || is_hash c || is_bullet c || is_digit c.

End FormatSpec.

(** ** Facts about strings and the matcher *)

Section CharClasses.

Import JS.
Local Open Scope N_scope.

Ltac classes :=
  unfold is_space, is_white_space, is_line_terminator, is_digit, dot,
    Citations.is_comma, Citations.is_sep, chr, chr_i, cu_eqb, canonicalize in *;
  simpl N_of_ascii in *;
  repeat (progress rewrite ?orb_true_iff, ?andb_true_iff, ?negb_true_iff,
            ?N.eqb_eq, ?N.leb_le, ?N.ltb_lt in * ).

Lemma space_not_digit a : is_space a = true -> is_digit a = false.
Proof.
  intros H. classes. apply andb_false_iff.
  rewrite !N.leb_gt. lia.
Qed.

Lemma space_not_lparen a : is_space a = true -> chr "(" a = false.
Proof. intros H. classes. apply N.eqb_neq. lia. Qed.

Lemma space_not_P a : is_space a = true -> chr_i "P" a = false.
Proof.
  intros H. classes. apply andb_false_iff.
  destruct (N.ltb_spec a 128); [right | now left].
  destruct ((97 <=? a) && (a <=? 122)) eqn:E; apply N.eqb_neq; cbn.
  - apply andb_true_iff in E. rewrite !N.leb_le in E. lia.
  - lia.
Qed.

Lemma lparen_not_P a : chr "(" a = true -> chr_i "P" a = false.
Proof.
  intros H. classes. subst a. reflexivity.
Qed.

Lemma comma_not_space a : chr "," a = true -> is_space a = false.
Proof. intros H. classes. subst a. reflexivity. Qed.

Lemma comma_not_lparen a : chr "," a = true -> chr "(" a = false.
Proof. intros H. classes. subst a. reflexivity. Qed.

Lemma comma_not_P a : chr "," a = true -> chr_i "P" a = false.
Proof. intros H. classes. subst a. reflexivity. Qed.

Lemma digit_not_rparen a : is_digit a = true -> chr ")" a = false.
Proof. intros H. classes. apply N.eqb_neq. lia. Qed.

Lemma cu_eqb_eq a b : cu_eqb a b = true <-> a = b.
Proof. apply N.eqb_eq. Qed.

Lemma str_eqb_eq s t : str_eqb s t = true <-> s = t.
Proof.
  revert t. induction s as [|a s IH]; intros [|b t]; simpl;
    try (split; [discriminate | congruence]); try tauto.
  rewrite andb_true_iff, cu_eqb_eq, IH. split.
  - intros [-> ->]. reflexivity.
  - intros H. injection H. auto.
Qed.

Lemma str_eqb_refl s : str_eqb s s = true.
Proof. now apply str_eqb_eq. Qed.

Lemma str_eqb_neq s t : str_eqb s t = false <-> s <> t.
Proof.
  rewrite <- str_eqb_eq. destruct (str_eqb s t); split; congruence.
Qed.

End CharClasses.

Section Matcher.

Import JS Regex Citations Staged Scan.

Lemma orElse_none a : orElse a (fun _ => None) = a.
Proof. now destruct a. Qed.

Lemma take_drop p (x : jsstring) : takeWhile p x ++ dropWhile p x = x.
Proof.
  induction x as [|a x IH]; simpl; [reflexivity|].
  destruct (p a); simpl; [now rewrite IH | reflexivity].
Qed.

Lemma consumed_app (pre x : jsstring) : consumed (pre ++ x) x = pre.
Proof.
  unfold consumed. rewrite length_app.
  replace (List.length pre + List.length x - List.length x)%nat
    with (List.length pre + 0)%nat by lia.
  rewrite firstn_app_2. simpl. apply app_nil_r.
Qed.

(** A greedy star whose continuation cannot start on a member of the set
    never gives a code unit back. *)
Lemma star_greedy_det p c (k : cont) :
  (forall a x, p a = true -> k (a :: x) c = None) ->
  forall x, star_greedy p x c k = k (dropWhile p x) c.
Proof.
  intros Hk. induction x as [|a x IH]; simpl; [reflexivity|].
  destruct (p a) eqn:E; [|reflexivity].
  rewrite IH, (Hk a x E). apply orElse_none.
Qed.

Lemma m_close x c k :
  m close x c k =
  match skip1 (chr ")") x with
  | [] => k [] c
  | _ :: _ => None
  end.
Proof.
  unfold close. simpl. destruct x as [|a x]; simpl; [reflexivity|].
  destruct (chr ")" a); simpl; [|reflexivity].
  destruct x; simpl; [|reflexivity]. now destruct (k [] c).
Qed.

Lemma m_number_close x c k :
  m number_close x c k =
  match takeWhile is_digit x with
  | [] => None
  | (_ :: _) as n =>
      match skip1 (chr ")") (dropWhile is_digit x) with
      | [] => k [] ((2, n) :: c)
      | _ :: _ => None
      end
  end.
Proof.
  unfold number_close, Plus.
  change (m (Seq (Group 2 (Seq (Class is_digit) (Star is_digit))) close) x c k)
    with (match x with
          | a :: x' =>
              if is_digit a
              then star_greedy is_digit x' c
                     (fun y c' => m close y ((2, consumed x y) :: c') k)
              else None
          | [] => None
          end).
  destruct x as [|a x]; simpl takeWhile; [reflexivity|].
  destruct (is_digit a) eqn:Ea; [|reflexivity].
  rewrite star_greedy_det.
  - rewrite m_close. simpl dropWhile. rewrite Ea.
    replace (consumed (a :: x) (dropWhile is_digit x))
      with (a :: takeWhile is_digit x); [reflexivity|].
    rewrite <- (take_drop is_digit x) at 2.
    now rewrite app_comm_cons, consumed_app.
  - intros b y Hb. rewrite m_close. simpl. now rewrite (digit_not_rparen _ Hb).
Qed.

Lemma m_spaces_number x c k :
  m (Seq (Star is_space) number_close) x c k =
  m number_close (dropWhile is_space x) c k.
Proof.
  change (m (Seq (Star is_space) number_close) x c k)
    with (star_greedy is_space x c (fun y c' => m number_close y c' k)).
  apply star_greedy_det. intros a y Ha.
  rewrite m_number_close. simpl. now rewrite (space_not_digit _ Ha).
Qed.

Lemma m_word r x c k :
  m (word_i "Page" r) x c k =
  match page_word x with
  | Some x' => m r x' c k
  | None => None
  end.
Proof.
  unfold page_word. simpl.
  destruct x as [|a1 [|a2 [|a3 [|a4 x]]]]; simpl;
    repeat match goal with
           | |- context [chr_i ?a ?b] => destruct (chr_i a b); simpl
           end; reflexivity.
Qed.

Lemma m_lparen r x c k :
  m (Seq (Opt (Class (chr "("))) (word_i "Page" r)) x c k =
  m (word_i "Page" r) (skip1 (chr "(") x) c k.
Proof.
  change (m (Seq (Opt (Class (chr "("))) (word_i "Page" r)) x c k)
    with (orElse
            (match x with
             | a :: x' =>
                 if chr "(" a then m (word_i "Page" r) x' c k else None
             | [] => None
             end)
            (fun _ => m (word_i "Page" r) x c k)).
  destruct x as [|a x]; simpl skip1; [reflexivity|].
  destruct (chr "(" a) eqn:Ea; [|reflexivity].
  rewrite (m_word r (a :: x)).
  replace (page_word (a :: x)) with (@None jsstring).
  - apply orElse_none.
  - unfold page_word. destruct x as [|a2 [|a3 [|a4 x]]]; try reflexivity.
    now rewrite (lparen_not_P _ Ea).
Qed.

Lemma page_word_not_P a x : chr_i "P" a = false -> page_word (a :: x) = None.
Proof.
  intros H. unfold page_word.
  destruct x as [|a2 [|a3 [|a4 x]]]; try reflexivity. now rewrite H.
Qed.

Lemma m_spaces_lparen r x c k :
  m (Seq (Star is_space) (Seq (Opt (Class (chr "("))) (word_i "Page" r))) x c k =
  m (Seq (Opt (Class (chr "("))) (word_i "Page" r)) (dropWhile is_space x) c k.
Proof.
  change (m (Seq (Star is_space) (Seq (Opt (Class (chr "("))) (word_i "Page" r))) x c k)
    with (star_greedy is_space x c
            (fun y c' => m (Seq (Opt (Class (chr "("))) (word_i "Page" r)) y c' k)).
  apply star_greedy_det. intros a y Ha.
  rewrite m_lparen. simpl skip1. rewrite (space_not_lparen _ Ha).
  rewrite m_word, page_word_not_P; [reflexivity|].
  now apply space_not_P.
Qed.

Lemma m_comma r x c k :
  let rest := Seq (Star is_space) (Seq (Opt (Class (chr "("))) (word_i "Page" r)) in
  m (Seq (Opt (Class (chr ","))) rest) x c k = m rest (skip1 is_comma x) c k.
Proof.
  intros rest.
  change (m (Seq (Opt (Class (chr ","))) rest) x c k)
    with (orElse
            (match x with
             | a :: x' => if chr "," a then m rest x' c k else None
             | [] => None
             end)
            (fun _ => m rest x c k)).
  destruct x as [|a x]; simpl skip1; [reflexivity|].
  unfold is_comma. destruct (chr "," a) eqn:Ea; [|reflexivity].
  replace (m rest (a :: x) c k) with (@None captures); [apply orElse_none|].
  unfold rest. rewrite m_spaces_lparen. simpl dropWhile.
  rewrite (comma_not_space _ Ea), m_lparen. simpl skip1.
  rewrite (comma_not_lparen _ Ea), m_word, page_word_not_P; [reflexivity|].
  now apply comma_not_P.
Qed.

(** The tail of the pattern accepts exactly the page indicators, and
    captures the number as group 2. *)
Lemma m_pageTail x c k :
  m pageTail x c k =
  match indicator x with
  | Some n => k [] ((2, n) :: c)
  | None => None
  end.
Proof.
  unfold pageTail, NonCapture.
  rewrite (m_comma (Seq (Star is_space) number_close)). cbv zeta.
  rewrite m_spaces_lparen, m_lparen, m_word. unfold indicator.
  destruct (page_word _) as [t|]; [|reflexivity].
  rewrite m_spaces_number, m_number_close.
  destruct (takeWhile is_digit _); [reflexivity|].
  now destruct (skip1 (chr ")") _).
Qed.

End Matcher.

Section PageMatch.

Import JS Regex Citations Staged Scan.

Lemma star_lazy_eq p x c k :
  star_lazy p x c k =
  orElse (k x c)
    (fun _ => match x with
              | a :: x' => if p a then star_lazy p x' c k else None
              | [] => None
              end).
Proof. now destruct x. Qed.

Lemma line_scan_eq s :
  line_scan s =
  match indicator s with
  | Some n => Some ([], n)
  | None =>
      match s with
      | a :: s' =>
          if dot a
          then match line_scan s' with
               | Some (pre, n) => Some (a :: pre, n)
               | None => None
               end
          else None
      | [] => None
      end
  end.
Proof. now destruct s. Qed.

Lemma find_indicator_eq s :
  find_indicator s =
  match indicator s with
  | Some n => Some ([], n)
  | None =>
      match s with
      | [] => None
      | a :: s' =>
          match find_indicator s' with
          | Some (pre, n) => Some (a :: pre, n)
          | None => None
          end
      end
  end.
Proof. now destruct s. Qed.

Lemma exec_scan_eq s :
  exec_scan s =
  match line_scan s with
  | Some r => Some r
  | None => match s with [] => None | _ :: s' => exec_scan s' end
  end.
Proof. now destruct s. Qed.

Lemma lazy_group x0 c : forall x pre0,
  x0 = pre0 ++ x ->
  star_lazy dot x c
    (fun y c' => m pageTail y ((1, consumed x0 y) :: c') (fun _ r => Some r)) =
  match line_scan x with
  | Some (pre, n) => Some ((2, n) :: (1, pre0 ++ pre) :: c)
  | None => None
  end.
Proof.
  induction x as [|a x IH]; intros pre0 E;
    rewrite star_lazy_eq, m_pageTail, line_scan_eq; subst x0;
    rewrite consumed_app.
  - destruct (indicator []); unfold orElse; [now rewrite app_nil_r | reflexivity].
  - destruct (indicator (a :: x)); unfold orElse; [now rewrite app_nil_r|].
    destruct (dot a); [|reflexivity].
    rewrite (IH (pre0 ++ [a])) by now rewrite <- app_assoc.
    destruct (line_scan x) as [[pre n]|]; [|reflexivity].
    now rewrite <- app_assoc.
Qed.

Lemma m_pageRe x :
  m pageRe x [] (fun _ r => Some r) =
  match line_scan x with
  | Some (pre, n) => Some [(2, n); (1, pre)]
  | None => None
  end.
Proof.
  change (m pageRe x [] (fun _ r => Some r))
    with (star_lazy dot x []
            (fun y c' => m pageTail y ((1, consumed x y) :: c')
                           (fun _ r => Some r))).
  now rewrite (lazy_group (x0 := x) [] x []).
Qed.

(** The pattern, as the engine runs it, finds what the two scans find. *)
Lemma exec_eq r x :
  exec r x =
  orElse (m r x [] (fun _ c => Some c))
    (fun _ => match x with [] => None | _ :: x' => exec r x' end).
Proof. now destruct x. Qed.

Lemma pageMatch_scan x : pageMatch x = exec_scan x.
Proof.
  unfold pageMatch. induction x as [|a x IH];
    rewrite exec_eq, m_pageRe, exec_scan_eq.
  - destruct (line_scan []) as [[pre n]|]; reflexivity.
  - destruct (line_scan (a :: x)) as [[pre n]|]; [reflexivity|].
    exact IH.
Qed.

Lemma find_indicator_split s pre n :
  find_indicator s = Some (pre, n) ->
  exists t, s = pre ++ t /\ indicator t = Some n.
Proof.
  revert pre. induction s as [|a s IH]; intros pre; rewrite find_indicator_eq.
  - destruct (indicator []) eqn:E; [|discriminate].
    intros H. injection H as <- <-. now exists [].
  - destruct (indicator (a :: s)) eqn:E.
    + intros H. injection H as <- <-. now exists (a :: s).
    + destruct (find_indicator s) as [[pre' n']|]; [|discriminate].
      intros H. injection H as <- <-.
      destruct (IH pre' eq_refl) as (t & -> & Ht). now exists t.
Qed.

Lemma line_scan_found s pre n :
  find_indicator s = Some (pre, n) ->
  line_scan s = if forallb dot pre then Some (pre, n) else None.
Proof.
  revert pre. induction s as [|a s IH]; intros pre;
    rewrite find_indicator_eq, line_scan_eq.
  - destruct (indicator []); [|discriminate].
    intros H. now injection H as <- <-.
  - destruct (indicator (a :: s)).
    + intros H. now injection H as <- <-.
    + destruct (find_indicator s) as [[pre' n']|]; [|discriminate].
      intros H. injection H as <- <-. simpl.
      rewrite (IH pre' eq_refl).
      destruct (dot a); [|reflexivity]. now destruct (forallb dot pre').
Qed.

Lemma line_scan_none s : find_indicator s = None -> line_scan s = None.
Proof.
  induction s as [|a s IH]; rewrite find_indicator_eq, line_scan_eq.
  - now destruct (indicator []).
  - destruct (indicator (a :: s)); [discriminate|].
    destruct (find_indicator s) as [[pre n]|]; [discriminate|].
    intros _. rewrite IH by reflexivity. now destruct (dot a).
Qed.

Lemma exec_scan_none s : find_indicator s = None -> exec_scan s = None.
Proof.
  induction s as [|a s IH]; intros H; rewrite exec_scan_eq, line_scan_none by exact H.
  - reflexivity.
  - apply IH. rewrite find_indicator_eq in H.
    destruct (indicator (a :: s)); [discriminate|].
    now destruct (find_indicator s) as [[pre n]|].
Qed.

Lemma last_line_eq s :
  last_line s =
  if forallb dot s then s
  else match s with [] => [] | _ :: s' => last_line s' end.
Proof. now destruct s. Qed.

Lemma exec_scan_found s pre n :
  find_indicator s = Some (pre, n) -> exec_scan s = Some (last_line pre, n).
Proof.
  revert pre. induction s as [|a s IH]; intros pre H;
    rewrite exec_scan_eq, (line_scan_found _ H), last_line_eq;
    destruct (forallb dot pre) eqn:Ed; try reflexivity.
  - rewrite find_indicator_eq in H. destruct (indicator []); [|discriminate].
    injection H as <- <-. discriminate.
  - rewrite find_indicator_eq in H. destruct (indicator (a :: s)).
    + injection H as <- <-. discriminate.
    + destruct (find_indicator s) as [[pre' n']|] eqn:Ef; [|discriminate].
      injection H as <- <-. now apply IH.
Qed.

(** The match of the pattern in terms of the longest indicator suffix:
    group 1 is the last line of the text in front of it. *)
Lemma pageMatch_char s :
  pageMatch s =
  match find_indicator s with
  | Some (pre, n) => Some (last_line pre, n)
  | None => None
  end.
Proof.
  rewrite pageMatch_scan.
  destruct (find_indicator s) as [[pre n]|] eqn:E.
  - now apply exec_scan_found.
  - now apply exec_scan_none.
Qed.

End PageMatch.

Section ParseStages.

Import JS Regex Citations Staged Scan.

Lemma forallb_app_l {A} (p : A -> bool) (u v : list A) :
  forallb p (u ++ v) = true -> forallb p u = true.
Proof. rewrite forallb_app, andb_true_iff. tauto. Qed.

Lemma last_line_id s : forallb dot s = true -> last_line s = s.
Proof. intros H. now rewrite last_line_eq, H. Qed.

Lemma split_nonempty p s : split p s <> [].
Proof.
  destruct s as [|a s]; simpl; [discriminate|].
  destruct (p a); [discriminate|]. now destruct (split p s).
Qed.

(** [s.split(',')[0]] is the text in front of the first comma. *)
Lemma first_split s : first (split is_comma s) = before_comma s.
Proof.
  unfold first, before_comma.
  induction s as [|a s IH]; simpl; [reflexivity|].
  destruct (is_comma a); simpl; [reflexivity|].
  destruct (split is_comma s) eqn:E; [now apply split_nonempty in E|].
  simpl in *. now rewrite IH.
Qed.

(** The parse of the code in terms of the longest indicator suffix, for
    every string. *)
Lemma parse_char sourceString :
  parse sourceString =
  let s := cleanSource sourceString in
  match find_indicator s with
  | Some (pre, n) => (trim (last_line pre), Some n)
  | None =>
      if includes is_comma s then (trim (before_comma s), None) else (s, None)
  end.
Proof.
  unfold parse. rewrite pageMatch_char, first_split. cbv zeta.
  now destruct (find_indicator _) as [[pre n]|].
Qed.

Lemma dropWhile_all p (ws t : jsstring) :
  forallb p ws = true -> dropWhile p (ws ++ t) = dropWhile p t.
Proof.
  induction ws as [|a ws IH]; simpl; [reflexivity|].
  rewrite andb_true_iff. intros [-> H]. now apply IH.
Qed.

Lemma dropWhile_length p (s : jsstring) :
  (List.length (dropWhile p s) <= List.length s)%nat.
Proof.
  induction s as [|a s IH]; simpl; [lia|]. destruct (p a); simpl; lia.
Qed.

Lemma dropWhile_fixed p (s t : jsstring) :
  s <> [] -> dropWhile p s = s -> dropWhile p (s ++ t) = s ++ t.
Proof.
  destruct s as [|a s]; [congruence|]. intros _. simpl.
  destruct (p a); [|reflexivity]. intros H.
  pose proof (dropWhile_length p s) as Hl. rewrite H in Hl. simpl in Hl. lia.
Qed.

(** The first stage on a wrapped name: the wrapper, with the blanks after
    the colon, is removed and the name is left. *)
Lemma cleanSource_wrapped (ws name : jsstring) :
  forallb is_space ws = true ->
  trimStart name = name -> trimEnd name = name ->
  cleanSource (lit "[Source:" ++ ws ++ name ++ lit "]") = name.
Proof.
  intros Hws Hs He. unfold cleanSource.
  change (strip_open (lit "[Source:" ++ ws ++ name ++ lit "]"))
    with (dropWhile is_space (ws ++ name ++ lit "]")).
  rewrite (dropWhile_all _ _ _ Hws).
  assert (Hd : dropWhile is_space (name ++ lit "]") = name ++ lit "]").
  { destruct name as [|a name]; [reflexivity|].
    apply dropWhile_fixed; [discriminate | exact Hs]. }
  rewrite Hd. unfold strip_close. rewrite rev_app_distr. simpl.
  rewrite rev_involutive. unfold trim. now rewrite Hs, He.
Qed.

End ParseStages.

(** ** The keys of [groupedSources] *)

Section KeyOrder.

Import JS Citations Grouping.

Lemma mem_In k l : mem k l = true <-> In k l.
Proof.
  unfold mem. rewrite existsb_exists. split.
  - intros (x & Hx & E). apply str_eqb_eq in E. now subst.
  - intros H. exists k. split; [exact H | apply str_eqb_refl].
Qed.

Lemma mem_app k l1 l2 : mem k (l1 ++ l2) = mem k l1 || mem k l2.
Proof. apply existsb_app. Qed.

Lemma own_mem o k : own o k = None <-> mem k (map fst o) = false.
Proof.
  induction o as [|[k' e] o IH]; simpl; [tauto|].
  destruct (str_eqb k k'); simpl; [split; discriminate | exact IH].
Qed.

Lemma own_set o k e : own (set o k e) k = Some e.
Proof.
  induction o as [|[k' e'] o IH]; simpl.
  - now rewrite str_eqb_refl.
  - destruct (str_eqb k k') eqn:E; simpl; rewrite E; [reflexivity | exact IH].
Qed.

Lemma keys_set o k e :
  map fst (set o k e) =
  if mem k (map fst o) then map fst o else map fst o ++ [k].
Proof.
  induction o as [|[k' e'] o IH]; simpl; [reflexivity|].
  destruct (str_eqb k k') eqn:E; simpl; [reflexivity|].
  rewrite IH. now destruct (mem k (map fst o)).
Qed.

Lemma keys_set_own o k e e' :
  own o k = Some e' -> map fst (set o k e) = map fst o.
Proof.
  intros H. rewrite keys_set.
  destruct (mem k (map fst o)) eqn:E; [reflexivity|].
  apply own_mem in E. congruence.
Qed.

(** One source string adds its key last, unless the key is already there
    or is found in [Object.prototype]. *)
Lemma keys_step o s o' :
  step o s = Some o' ->
  map fst o' =
  if mem (keyOf s) (map fst o) || inherited (keyOf s)
  then map fst o else map fst o ++ [keyOf s].
Proof.
  unfold step, get.
  destruct (mem (keyOf s) (map fst o)) eqn:Em;
    destruct (own o (keyOf s)) as [e|] eqn:Eo;
    try (apply own_mem in Eo; congruence);
    try (apply own_mem in Em; congruence);
    destruct (inherited (keyOf s)) eqn:Ei; cbn [truthy negb orb];
    rewrite ?Eo, ?Ei, ?own_set.
  - destruct (truthy_page (pageOf s)); intros H; injection H as <-;
      [now rewrite (keys_set_own _ _ _ Eo) | reflexivity].
  - destruct (truthy_page (pageOf s)); intros H; injection H as <-;
      [now rewrite (keys_set_own _ _ _ Eo) | reflexivity].
  - destruct (truthy_page (pageOf s)); [discriminate|].
    intros H. now injection H as <-.
  - destruct (truthy_page (pageOf s)); intros H; injection H as <-.
    + now rewrite (keys_set_own _ _ _ (own_set _ _ _)), keys_set, Em.
    + now rewrite keys_set, Em.
Qed.

(** A source string whose key is not inherited never throws. *)
Lemma step_total o s :
  inherited (keyOf s) = false -> exists o', step o s = Some o'.
Proof.
  intros Hi. unfold step, get. rewrite Hi.
  destruct (own o (keyOf s)) as [e|] eqn:Eo; cbn [truthy negb];
    rewrite ?Eo, ?own_set; destruct (truthy_page (pageOf s)); eauto.
Qed.

Lemma filter_filter {A} (f g : A -> bool) l :
  filter f (filter g l) = filter (fun x => f x && g x) l.
Proof.
  induction l as [|a l IH]; simpl; [reflexivity|].
  destruct (g a), (f a) eqn:E; simpl; rewrite ?E, IH; reflexivity.
Qed.

(** The keys after the loop: those before it, then the first occurrences
    of the new keys that are not inherited. *)
Lemma keys_forEach sources : forall o o',
  forEach sources o = Some o' ->
  map fst o' =
  map fst o ++ filter (fresh (map fst o)) (uniq (map keyOf sources)).
Proof.
  induction sources as [|s rest IH]; intros o o'; simpl.
  - intros H. injection H as <-. now rewrite app_nil_r.
  - destruct (step o s) as [o1|] eqn:Es; [|discriminate].
    intros H. rewrite (IH _ _ H), (keys_step _ _ Es), filter_filter.
    unfold fresh at 2.
    destruct (mem (keyOf s) (map fst o) || inherited (keyOf s)) eqn:E.
    + replace (negb (inherited (keyOf s)) && negb (mem (keyOf s) (map fst o)))
        with false by (destruct (inherited (keyOf s)), (mem (keyOf s) (map fst o));
                       simpl in *; congruence).
      f_equal. apply filter_ext. intros x. unfold fresh.
      destruct (str_eqb x (keyOf s)) eqn:Ex; simpl; [|now rewrite andb_true_r].
      apply str_eqb_eq in Ex. subst x.
      destruct (inherited (keyOf s)), (mem (keyOf s) (map fst o));
        simpl in *; congruence.
    + apply orb_false_iff in E. destruct E as [E1 E2]. rewrite E1, E2. simpl.
      rewrite <- app_assoc. simpl. do 2 f_equal.
      apply filter_ext. intros x. unfold fresh.
      rewrite mem_app. simpl. rewrite orb_false_r.
      now rewrite negb_orb, andb_assoc.
Qed.

Lemma forEach_total sources : forall o,
  forallb (fun s => negb (inherited (keyOf s))) sources = true ->
  exists o', forEach sources o = Some o'.
Proof.
  induction sources as [|s rest IH]; intros o; simpl; [eauto|].
  rewrite andb_true_iff, negb_true_iff. intros [Hs Hrest].
  destruct (step_total o s Hs) as [o1 ->]. now apply IH.
Qed.

Lemma uniq_In x l : In x (uniq l) <-> In x l.
Proof.
  induction l as [|k l IH]; simpl; [tauto|].
  rewrite filter_In, IH, negb_true_iff, str_eqb_neq.
  split; [tauto|]. intros [->|H]; [now left|].
  destruct (list_eq_dec N.eq_dec k x); [now left | right; split; congruence].
Qed.

Lemma filter_length_le {A} (f : A -> bool) l :
  (List.length (filter f l) <= List.length l)%nat.
Proof.
  induction l as [|a l IH]; simpl; [lia|]. destruct (f a); simpl; lia.
Qed.

Lemma uniq_length l : (List.length (uniq l) <= List.length l)%nat.
Proof.
  induction l as [|k l IH]; simpl; [lia|].
  pose proof (filter_length_le (fun x => negb (str_eqb x k)) (uniq l)). lia.
Qed.

Lemma keys_groupedSources sources o :
  groupedSources sources = Some o ->
  map fst o =
  filter (fun k => negb (inherited k)) (uniq (map keyOf sources)).
Proof.
  intros H. rewrite (keys_forEach _ _ H). simpl.
  apply filter_ext. intros x. unfold fresh. simpl. apply andb_true_r.
Qed.

End KeyOrder.

Section ObjectKeys.

Import JS Citations Grouping.
Local Open Scope N_scope.

Lemma insert_index_perm k l : Permutation (insert_index k l) (k :: l).
Proof.
  induction l as [|a l IH]; simpl; [reflexivity|].
  destruct (index_of k <=? index_of a); [reflexivity|].
  rewrite IH. apply perm_swap.
Qed.

Lemma sort_index_perm l : Permutation (sort_index l) l.
Proof.
  induction l as [|a l IH]; simpl; [reflexivity|].
  now rewrite insert_index_perm, IH.
Qed.

Lemma insert_index_sorted k l :
  StronglySorted index_le l -> StronglySorted index_le (insert_index k l).
Proof.
  induction 1 as [|a l Hs IH Ha]; simpl.
  - constructor; constructor.
  - destruct (N.leb_spec (index_of k) (index_of a)) as [Hle|Hgt].
    + constructor; [now constructor|].
      constructor; [exact Hle|].
      eapply Forall_impl; [|exact Ha]. unfold index_le. intros; lia.
    + constructor; [exact IH|].
      eapply Permutation_Forall; [symmetry; apply insert_index_perm|].
      constructor; [unfold index_le; lia | exact Ha].
Qed.

Lemma sort_index_sorted l : StronglySorted index_le (sort_index l).
Proof.
  induction l as [|a l IH]; simpl; [constructor|].
  now apply insert_index_sorted.
Qed.

Lemma filter_split_perm {A} (f : A -> bool) l :
  Permutation (filter f l ++ filter (fun x => negb (f x)) l) l.
Proof.
  induction l as [|a l IH]; simpl; [reflexivity|].
  destruct (f a); simpl.
  - now constructor.
  - rewrite <- Permutation_middle. now constructor.
Qed.

Lemma Object_keys_perm o : Permutation (Object_keys o) (map fst o).
Proof.
  unfold Object_keys. rewrite sort_index_perm. apply filter_split_perm.
Qed.

Lemma uniqueFileCount_length o : uniqueFileCount o = List.length o.
Proof.
  unfold uniqueFileCount.
  now rewrite (Permutation_length (Object_keys_perm o)), length_map.
Qed.

Lemma filter_none {A} (f : A -> bool) l :
  forallb (fun x => negb (f x)) l = true -> filter f l = [].
Proof.
  induction l as [|a l IH]; simpl; [reflexivity|].
  rewrite andb_true_iff, negb_true_iff. intros [-> H]. now apply IH.
Qed.

Lemma filter_all {A} (f : A -> bool) l :
  forallb f l = true -> filter f l = l.
Proof.
  induction l as [|a l IH]; simpl; [reflexivity|].
  rewrite andb_true_iff. intros [-> H]. now rewrite IH.
Qed.

End ObjectKeys.

Section StripPath.

Import JS Citations.

Lemma includes_sep f :
  includes (chr "/") f || includes (chr "\") f = includes is_sep f.
Proof.
  unfold includes, is_sep. induction f as [|a f IH]; simpl; [reflexivity|].
  rewrite <- IH.
  destruct (chr "/" a), (chr "\" a), (existsb (chr "/") f),
    (existsb (chr "\") f); reflexivity.
Qed.

Lemma split_single p (s : jsstring) :
  existsb p s = false -> split p s = [s].
Proof.
  induction s as [|a s IH]; simpl; [reflexivity|].
  destruct (p a); simpl; [discriminate|]. intros H. now rewrite IH.
Qed.

Lemma split_two p (s : jsstring) :
  existsb p s = true -> exists w1 w2 ws, split p s = w1 :: w2 :: ws.
Proof.
  induction s as [|a s IH]; simpl; [discriminate|].
  destruct (p a) eqn:E; simpl.
  - intros _. destruct (split p s) as [|w ws] eqn:Es;
      [now apply split_nonempty in Es | eauto].
  - intros H. destruct (IH H) as (w1 & w2 & ws & ->). eauto.
Qed.

(** The last separator of a string that has one. *)
Lemma last_separator (p : cu -> bool) (s : jsstring) :
  existsb p s = true ->
  exists u c v, s = u ++ c :: v /\ p c = true /\ existsb p v = false.
Proof.
  induction s as [|a s IH]; simpl; [discriminate|].
  destruct (existsb p s) eqn:Es.
  - intros _. destruct (IH eq_refl) as (u & c & v & -> & Hc & Hv).
    now exists (a :: u), c, v.
  - rewrite orb_false_r. intros Ha. now exists [], a, s.
Qed.

Lemma pop_split p (u : jsstring) c v :
  p c = true -> existsb p v = false -> pop (split p (u ++ c :: v)) = v.
Proof.
  intros Hc Hv. unfold pop. induction u as [|a u IH]; simpl.
  - rewrite Hc, (split_single _ _ Hv). reflexivity.
  - assert (Hex : existsb p (u ++ c :: v) = true).
    { rewrite existsb_app. simpl. rewrite Hc. apply orb_true_r. }
    destruct (split_two _ _ Hex) as (w1 & w2 & ws & E).
    rewrite E in *. destruct (p a); exact IH.
Qed.

(** [strip_path] keeps the text after the last separator. *)
Lemma strip_path_last u c v :
  is_sep c = true -> includes is_sep v = false ->
  strip_path (u ++ c :: v) = v.
Proof.
  intros Hc Hv. unfold strip_path. rewrite includes_sep.
  unfold includes. rewrite existsb_app. simpl. rewrite Hc, orb_true_r.
  now apply pop_split.
Qed.

Lemma strip_path_id f : includes is_sep f = false -> strip_path f = f.
Proof. intros H. unfold strip_path. now rewrite includes_sep, H. Qed.

Lemma strip_path_no_sep f : includes is_sep (strip_path f) = false.
Proof.
  destruct (includes is_sep f) eqn:E.
  - destruct (last_separator _ _ E) as (u & c & v & -> & Hc & Hv).
    now rewrite strip_path_last.
  - now rewrite strip_path_id.
Qed.

End StripPath.

(** ** What holds of the cards for every input *)

Section Cards.

Import JS Citations Staged Scan Grouping.
Local Open Scope N_scope.

Lemma number_ltb_asym x y : number_ltb x y = true -> number_ltb y x = false.
Proof.
  destruct x as [a|], y as [b|]; simpl; try congruence.
  rewrite N.ltb_lt, N.ltb_ge. lia.
Qed.

Lemma number_ltb_trans x y z :
  number_ltb x y = false -> number_ltb y z = false -> number_ltb x z = false.
Proof.
  destruct x as [a|], y as [b|], z as [c|]; simpl; try congruence.
  rewrite !N.ltb_ge. lia.
Qed.

Lemma insert_page_perm a l : Permutation (insert_page a l) (a :: l).
Proof.
  induction l as [|b l IH]; simpl; [reflexivity|].
  destruct (before b a); [|reflexivity].
  rewrite IH. apply perm_swap.
Qed.

Lemma sort_pages_perm l : Permutation (sort_pages l) l.
Proof.
  induction l as [|a l IH]; simpl; [reflexivity|].
  now rewrite insert_page_perm, IH.
Qed.

Lemma insert_page_sorted a l :
  StronglySorted number_le l -> StronglySorted number_le (insert_page a l).
Proof.
  induction 1 as [|b l Hs IH Hb]; simpl.
  - constructor; constructor.
  - destruct (before b a) eqn:E.
    + constructor; [exact IH|].
      eapply Permutation_Forall; [symmetry; apply insert_page_perm|].
      constructor; [|exact Hb]. now apply number_ltb_asym.
    + constructor; [now constructor|].
      constructor; [exact E|].
      eapply Forall_impl; [|exact Hb]. unfold number_le, before in *.
      intros x Hx. eapply number_ltb_trans; eassumption.
Qed.

(** The page list of a card is in ascending order of [Number]. *)
Lemma sort_pages_sorted l : StronglySorted number_le (sort_pages l).
Proof.
  induction l as [|a l IH]; simpl; [constructor|].
  now apply insert_page_sorted.
Qed.

Lemma Set_add_NoDup p s : NoDup s -> NoDup (Set_add p s).
Proof.
  intros H. unfold Set_add.
  destruct (existsb (str_eqb p) s) eqn:E; [exact H|].
  apply (Permutation_NoDup (l := p :: s)).
  - apply Permutation_cons_append.
  - constructor; [|exact H]. intros Hin.
    apply mem_In in Hin. unfold mem in Hin. congruence.
Qed.

Lemma set_distinct o k e :
  distinct_pages o -> NoDup (pages e) -> distinct_pages (set o k e).
Proof.
  unfold distinct_pages. induction 1 as [|[k' e'] o Hh Ht IH]; intros He; simpl.
  - now constructor.
  - destruct (str_eqb k k'); constructor; auto.
Qed.

Lemma own_distinct o k e :
  distinct_pages o -> own o k = Some e -> NoDup (pages e).
Proof.
  unfold distinct_pages. induction 1 as [|[k' e'] o Hh Ht IH]; simpl;
    [discriminate|].
  destruct (str_eqb k k'); [|exact IH]. intros H. now injection H as <-.
Qed.

Lemma step_distinct o s o' :
  step o s = Some o' -> distinct_pages o -> distinct_pages o'.
Proof.
  unfold step, get. intros H Hd.
  destruct (own o (keyOf s)) as [e|] eqn:Eo;
    [|destruct (inherited (keyOf s)) eqn:Ei];
    cbn [truthy negb] in H; rewrite ?Eo, ?Ei, ?own_set in H;
    destruct (truthy_page (pageOf s)) as [page|];
    try discriminate; injection H as <-.
  - apply set_distinct; [exact Hd|]. simpl.
    apply Set_add_NoDup. eapply own_distinct; eassumption.
  - exact Hd.
  - exact Hd.
  - apply set_distinct; [apply set_distinct; [exact Hd|constructor]|].
    simpl. apply Set_add_NoDup. constructor.
  - apply set_distinct; [exact Hd|constructor].
Qed.

Lemma forEach_distinct sources : forall o o',
  forEach sources o = Some o' -> distinct_pages o -> distinct_pages o'.
Proof.
  induction sources as [|s rest IH]; intros o o'; simpl.
  - intros H. now injection H as <-.
  - destruct (step o s) as [o1|] eqn:Es; [|discriminate].
    intros H Hd. eapply IH; [exact H|]. eapply step_distinct; eassumption.
Qed.

Lemma uniq_NoDup l : NoDup (uniq l).
Proof.
  induction l as [|k l IH]; simpl; constructor.
  - rewrite filter_In, negb_true_iff, str_eqb_neq. tauto.
  - now apply NoDup_filter.
Qed.

(** For every input on which the loop completes: one card per key, the
    page strings of a card are distinct and in ascending order of their
    numeric value. *)
Lemma cards_sorted_distinct sources o :
  groupedSources sources = Some o ->
  NoDup (map card_filename (cards o))
  /\ Forall (fun c => NoDup (card_pages c)
                      /\ StronglySorted number_le (card_pages c)) (cards o).
Proof.
  intros Hg. split.
  - unfold cards. rewrite map_map. simpl. rewrite map_id.
    apply (Permutation_NoDup (Permutation_sym (Object_keys_perm o))).
    rewrite (keys_groupedSources _ Hg). apply NoDup_filter, uniq_NoDup.
  - unfold cards. apply Forall_map, Forall_forall. intros k _. simpl.
    split; [|apply sort_pages_sorted].
    apply (Permutation_NoDup (Permutation_sym (sort_pages_perm _))).
    unfold pages_of. destruct (own o k) as [e|] eqn:Eo; [|constructor].
    eapply own_distinct; [|exact Eo].
    eapply forEach_distinct; [exact Hg | constructor].
Qed.

(** The count of "Verified References" never exceeds the number of raw
    strings, and counts the distinct keys that are not inherited. *)
Lemma uniqueFileCount_bound sources o :
  groupedSources sources = Some o ->
  uniqueFileCount o
  = List.length (filter (fun k => negb (inherited k)) (uniq (map keyOf sources)))
  /\ (uniqueFileCount o <= List.length sources)%nat.
Proof.
  intros Hg. rewrite uniqueFileCount_length, <- (length_map fst o).
  rewrite (keys_groupedSources _ Hg). split; [reflexivity|].
  eapply Nat.le_trans; [apply filter_length_le|].
  eapply Nat.le_trans; [apply uniq_length|]. now rewrite length_map.
Qed.

Lemma indicator_digits t n :
  indicator t = Some n -> n <> [] /\ forallb is_digit n = true.
Proof.
  unfold indicator. destruct (page_word _) as [u|]; [|discriminate].
  destruct (takeWhile is_digit (dropWhile is_space u)) as [|d ds] eqn:E;
    [discriminate|].
  destruct (skip1 _ _); [|discriminate]. intros H. injection H as <-.
  split; [discriminate|]. rewrite <- E.
  generalize (dropWhile is_space u). intros v.
  induction v as [|a v IH]; simpl; [reflexivity|].
  destruct (is_digit a) eqn:Ea; simpl; [now rewrite Ea|reflexivity].
Qed.

(** A matched page is a non-empty string of digits, so [if (page)] is
    taken for it. *)
Lemma page_truthy s : truthy_page (pageOf s) = pageOf s.
Proof.
  unfold pageOf. rewrite parse_char. cbv zeta.
  destruct (find_indicator (cleanSource s)) as [[pre n]|] eqn:E.
  - destruct (find_indicator_split _ E) as (t & _ & Ht).
    destruct (indicator_digits _ Ht) as [Hn _]. simpl.
    now destruct n.
  - now destruct (includes is_comma (cleanSource s)).
Qed.

End Cards.

(** ** Properties of the citation grouping *)

Section CitationClaims.

Import JS Citations Staged Scan Grouping Examples.
Local Open Scope N_scope.

(** C1: the three citations of the specification's example are grouped into
    two cards, "report.pdf" with the pages 1 and 3 in this order and
    "notes.txt" without a page, and "report.pdf" comes first. *)
Theorem grouping_example :
  option_map Object_keys (groupedSources example_sources)
  = Some [lit "report.pdf"; lit "notes.txt"]
  /\ option_map cards (groupedSources example_sources)
     = Some [ {| card_filename := lit "report.pdf";
                 card_pages := [lit "1"; lit "3"];
                 card_label := lit "Page 1, 3" |};
              {| card_filename := lit "notes.txt";
                 card_pages := [];
                 card_label := lit "Source Document" |} ]
  /\ map Number [lit "1"; lit "3"] = [Finite 1; Finite 3].
Proof. repeat split; vm_compute; reflexivity. Qed.

(** C2, as stated, fails on the code: the text in front of the first comma
    is trimmed before it becomes the file name ("a", not "a "), and a line
    terminator in front of the page indicator cuts the file name ("b", not
    the two lines). *)
Lemma parse_not_as_stated :
  parse spaced_comma <> staged_as_stated spaced_comma
  /\ parse two_lines <> staged_as_stated two_lines.
Proof. split; vm_compute; intros H; discriminate H. Qed.

(** C2, amended: for every raw citation string whose cleaned text has no
    line terminator, the parse is staged: the wrapper is stripped; a
    trailing page indicator gives the trimmed text in front of it as file
    name and its number as page; else, with a comma, the trimmed text in
    front of the first comma is the file name, without a page; else the
    whole cleaned string is the file name, without a page. *)
Theorem parse_staged (sourceString : jsstring) :
  forallb dot (cleanSource sourceString) = true ->
  parse sourceString = staged sourceString.
Proof.
  intros Hd. rewrite parse_char. unfold staged. cbv zeta.
  destruct (find_indicator (cleanSource sourceString)) as [[pre n]|] eqn:E;
    [|reflexivity].
  destruct (find_indicator_split _ E) as (t & Ht & _).
  rewrite Ht in Hd. now rewrite (last_line_id _ (forallb_app_l _ _ _ Hd)).
Qed.

Lemma parse_staged_witness :
  forallb dot (cleanSource (lit "[Source: report.pdf, Page 3]")) = true
  /\ parse (lit "[Source: report.pdf, Page 3]")
     = staged (lit "[Source: report.pdf, Page 3]").
Proof.
  split; [reflexivity | apply parse_staged; reflexivity].
Defined.

(** The path step on every input: the key of a raw citation string is the
    text after the last slash or backslash of its parsed file name, and the
    parsed file name itself when it has neither; so no key of the grouped
    output has a path separator, every key is the base name of some input
    string, and a base name that the object does not inherit is a key. *)
Lemma strip_path_base_name (sources : list jsstring) (o : object) :
  groupedSources sources = Some o ->
  (forall s, In s sources ->
     let f := fst (parse s) in
     (includes (chr "/") f || includes (chr "\") f = true ->
      exists dir c, f = dir ++ c :: keyOf s /\ is_sep c = true)
     /\ (includes (chr "/") f || includes (chr "\") f = false -> keyOf s = f)
     /\ includes is_sep (keyOf s) = false
     /\ (inherited (keyOf s) = false -> In (keyOf s) (Object_keys o)))
  /\ (forall k, In k (Object_keys o) ->
        includes is_sep k = false /\ exists s, In s sources /\ k = keyOf s).
Proof.
  intros Hg. pose proof (keys_groupedSources _ Hg) as Hk. split.
  - intros s Hs f. unfold keyOf. fold f. rewrite includes_sep.
    repeat split.
    + intros Hf. destruct (last_separator _ _ Hf) as (u & c & v & E & Hc & Hv).
      exists u, c. rewrite E at 2. now rewrite strip_path_last.
    + apply strip_path_id.
    + apply strip_path_no_sep.
    + intros Hi. apply (Permutation_in _ (Permutation_sym (Object_keys_perm o))).
      rewrite Hk. apply filter_In. split; [|now rewrite Hi].
      apply uniq_In, in_map_iff. now exists s.
  - intros k Hin. apply (Permutation_in _ (Object_keys_perm o)) in Hin.
    rewrite Hk in Hin. apply filter_In in Hin. destruct Hin as [Hin _].
    apply uniq_In, in_map_iff in Hin. destruct Hin as (s & <- & Hs).
    split; [apply strip_path_no_sep | now exists s].
Qed.

Lemma strip_path_base_name_witness :
  groupedSources path_sources = Some path_object
  /\ In (lit "report.pdf") (Object_keys path_object)
  /\ forall k, In k (Object_keys path_object) -> includes is_sep k = false.
Proof.
  split; [reflexivity|].
  destruct (strip_path_base_name path_sources (o := path_object) eq_refl)
    as [H1 H2].
  split.
  - apply (H1 (lit "[Source: docs/2024\report.pdf, Page 2]")).
    + now left.
    + reflexivity.
  - intros k Hk. apply (H2 k Hk).
Defined.

(** C5, as stated, fails on the code: "notes.txt" is cited first, but the
    file name "2024" is an array index and [Object.keys] lists it first. *)
Lemma keys_not_first_appearance :
  option_map Object_keys (groupedSources digit_sources)
  <> Some (uniq (map keyOf digit_sources)).
Proof. vm_compute. intros H. discriminate H. Qed.

(** C5, amended: when no cleaned file name is the name of a property that
    the object inherits, the grouping completes and its entries are
    iterated with the file names that are array indices (canonical decimal
    numbers below 2^32 - 1) first, in ascending numeric order, followed by
    all other file names in the order of their first appearance; without
    such a numeric file name the order is the order of first appearance. *)
Theorem keys_order (sources : list jsstring) :
  forallb (fun s => negb (inherited (keyOf s))) sources = true ->
  exists o idx,
    groupedSources sources = Some o
    /\ Object_keys o
       = idx ++ filter (fun k => negb (is_index k)) (uniq (map keyOf sources))
    /\ Permutation idx (filter is_index (uniq (map keyOf sources)))
    /\ StronglySorted index_le idx
    /\ (forallb (fun k => negb (is_index k)) (uniq (map keyOf sources)) = true ->
        Object_keys o = uniq (map keyOf sources)).
Proof.
  intros Hi. destruct (forEach_total sources [] Hi) as [o Ho].
  assert (Hk : map fst o = uniq (map keyOf sources)).
  { rewrite (keys_groupedSources _ Ho). apply filter_all.
    apply forallb_forall. intros k Hin.
    apply uniq_In, in_map_iff in Hin. destruct Hin as (s & <- & Hs).
    exact (proj1 (forallb_forall _ _) Hi s Hs). }
  exists o, (sort_index (filter is_index (map fst o))).
  unfold Object_keys. rewrite Hk. repeat split.
  - exact Ho.
  - apply sort_index_perm.
  - apply sort_index_sorted.
  - intros Hn. now rewrite (filter_none _ _ Hn), (filter_all _ _ Hn).
Qed.

Lemma keys_order_witness :
  forallb (fun s => negb (inherited (keyOf s))) digit_sources = true
  /\ exists o idx,
       groupedSources digit_sources = Some o
       /\ Object_keys o
          = idx ++ filter (fun k => negb (is_index k))
                     (uniq (map keyOf digit_sources))
       /\ Permutation idx (filter is_index (uniq (map keyOf digit_sources)))
       /\ StronglySorted index_le idx
       /\ (forallb (fun k => negb (is_index k))
             (uniq (map keyOf digit_sources)) = true ->
           Object_keys o = uniq (map keyOf digit_sources)).
Proof.
  split; [reflexivity | apply keys_order; reflexivity].
Defined.

(** C3 on the failing input: the parsed file name "docs/constructor" has a
    slash and its base name is "constructor", but the lookup finds that
    name in [Object.prototype], no entry is created, and the grouped output
    has no key at all: the base name does not appear as a key. *)
Theorem base_name_not_a_key :
  map (fun s => fst (parse s)) inherited_path_sources
  = [lit "docs/constructor"]
  /\ map keyOf inherited_path_sources = [lit "constructor"]
  /\ inherited (lit "constructor") = true
  /\ option_map Object_keys (groupedSources inherited_path_sources) = Some []
  /\ option_map cards (groupedSources inherited_path_sources) = Some [].
Proof. repeat split; vm_compute; reflexivity. Qed.

(** C9 on the failing input: the one raw string has the cleaned file name
    "constructor", which the lookup finds in [Object.prototype], so no
    entry is created and the count is 0 for 1 distinct file name; with a
    page the loop throws. *)
Theorem count_misses_inherited_name :
  option_map uniqueFileCount (groupedSources inherited_sources) = Some 0%nat
  /\ List.length (uniq (map keyOf inherited_sources)) = 1%nat
  /\ groupedSources [lit "[Source: constructor, Page 2]"] = None.
Proof. repeat split; vm_compute; reflexivity. Qed.

(** C4 on the failing input: the pages "1" and "01" of one file are
    different members of the set of page strings, so the page list of the
    card has the number 1 twice. *)
Theorem pages_duplicate_number :
  option_map cards (groupedSources zero_page_sources)
  = Some [ {| card_filename := lit "a.pdf";
              card_pages := [lit "1"; lit "01"];
              card_label := lit "Page 1, 01" |} ]
  /\ Number (lit "1") = Number (lit "01").
Proof. split; vm_compute; reflexivity. Qed.

End CitationClaims.

Section ChipLabels.

Import JS Chips.

Lemma startsWith_app pat s rest :
  startsWith pat s = Some rest -> s = pat ++ rest.
Proof.
  revert s. induction pat as [|a pat IH]; intros s; simpl.
  - intros H. now injection H.
  - destruct s as [|b s]; [discriminate|].
    destruct (cu_eqb a b) eqn:E; [|discriminate].
    apply cu_eqb_eq in E. subst b. intros H. now rewrite (IH _ H).
Qed.

Lemma indexOf_eq pat s :
  indexOf pat s =
  match startsWith pat s with
  | Some _ => Some 0%nat
  | None => match s with [] => None | _ :: s' => option_map S (indexOf pat s') end
  end.
Proof. now destruct s. Qed.

Lemma replace_first_eq pat s :
  replace_first pat s =
  match startsWith pat s with
  | Some rest => rest
  | None => match s with [] => [] | a :: s' => a :: replace_first pat s' end
  end.
Proof. now destruct s. Qed.

Lemma skipn_app_length (pat rest : jsstring) :
  skipn (List.length pat) (pat ++ rest) = rest.
Proof. induction pat; simpl; auto. Qed.

(** [replace] removes the occurrence that [indexOf] finds. *)
Lemma replace_first_index pat s :
  replace_first pat s =
  match indexOf pat s with
  | Some i => delete i (List.length pat) s
  | None => s
  end.
Proof.
  induction s as [|a s IH]; rewrite replace_first_eq, indexOf_eq.
  - destruct (startsWith pat []) eqn:E; [|reflexivity].
    apply startsWith_app in E. destruct pat; [simpl in *; congruence|discriminate].
  - destruct (startsWith pat (a :: s)) eqn:E.
    + apply startsWith_app in E. rewrite E. simpl. now rewrite skipn_app_length.
    + rewrite IH. now destruct (indexOf pat s).
Qed.

Lemma indexOf_closing_cons a s :
  indexOf closing (a :: s) =
  if cu_eqb 93%N a then Some 0%nat else option_map S (indexOf closing s).
Proof.
  rewrite indexOf_eq. unfold closing. cbn [lit startsWith].
  change (N_of_ascii "]") with 93%N. now destruct (cu_eqb 93%N a).
Qed.

Lemma chipLabel_opening rest :
  chipLabel (opening ++ rest) = first_occurrences_removed (opening ++ rest).
Proof.
  unfold chipLabel, first_occurrences_removed.
  rewrite (replace_first_eq opening). 
  change (startsWith opening (opening ++ rest)) with (Some rest).
  rewrite (indexOf_eq opening).
  change (startsWith opening (opening ++ rest)) with (Some rest).
  replace (indexOf closing (opening ++ rest))
    with (option_map (fun j => (9 + j)%nat) (indexOf closing rest)).
  - rewrite (replace_first_index closing).
    destruct (indexOf closing rest) as [j|]; reflexivity.
  - unfold opening. simpl lit. simpl app.
    do 9 rewrite indexOf_closing_cons. simpl.
    now destruct (indexOf closing rest).
Qed.

Lemma replace_closing_cons a s :
  replace_first closing (a :: s) =
  if cu_eqb 93%N a then s else a :: replace_first closing s.
Proof.
  rewrite replace_first_eq. unfold closing. cbn [lit startsWith].
  change (N_of_ascii "]") with 93%N. now destruct (cu_eqb 93%N a).
Qed.

(** The label of a chip is the source string without the first occurrence
    of the opening text and without the first closing bracket. *)
Lemma chipLabel_removed s : chipLabel s = first_occurrences_removed s.
Proof.
  induction s as [|a s IH]; [reflexivity|].
  destruct (startsWith opening (a :: s)) as [rest|] eqn:E.
  - apply startsWith_app in E. rewrite E. apply chipLabel_opening.
  - unfold chipLabel, first_occurrences_removed in *.
    rewrite (replace_first_eq opening), (indexOf_eq opening), E.
    rewrite indexOf_closing_cons, replace_closing_cons.
    destruct (cu_eqb 93%N a) eqn:Ea.
    + rewrite replace_first_index.
      destruct (indexOf opening s); reflexivity.
    + rewrite IH.
      destruct (indexOf opening s) as [i|], (indexOf closing s) as [j|];
        simpl; try reflexivity.
      change (Nat.ltb (S j) (S i)) with (Nat.ltb j i).
      now destruct (Nat.ltb j i).
Qed.

Lemma replace_closing_app u v :
  includes (chr "]") u = true ->
  replace_first closing (u ++ v) = replace_first closing u ++ v.
Proof.
  induction u as [|a u IH]; [discriminate|].
  intros H. change ((a :: u) ++ v) with (a :: (u ++ v)).
  rewrite !replace_closing_cons.
  destruct (cu_eqb 93%N a) eqn:Ea; [reflexivity|].
  simpl. rewrite IH; [reflexivity|].
  unfold includes in *. simpl in H. apply orb_true_iff in H.
  destruct H as [H|H]; [|exact H].
  unfold chr, cu_eqb in *. simpl in H. rewrite N.eqb_sym in H. congruence.
Qed.

End ChipLabels.

Section ChipClaims.

Import JS Chips.

(** C10: the label of a source chip is the source string without the first
    occurrence of the text "[Source: " and without the first occurrence of
    "]"; so for a wrapped file name that itself has a "]", the bracket that
    goes is the one of the name and the closing bracket of the wrapper
    stays at the end of the label. *)
Theorem chip_label_first_occurrences (source : jsstring) :
  chipLabel source = first_occurrences_removed source
  /\ forall name,
       source = opening ++ name ++ closing ->
       includes (chr "]") name = true ->
       chipLabel source = replace_first closing name ++ closing.
Proof.
  split; [apply chipLabel_removed|].
  intros name -> H. unfold chipLabel. rewrite (replace_first_eq opening).
  change (startsWith opening (opening ++ name ++ closing))
    with (Some (name ++ closing)).
  now apply replace_closing_app.
Qed.

Lemma chip_label_first_occurrences_witness :
  includes (chr "]") (lit "a]b") = true
  /\ chipLabel (lit "[Source: a]b]") = lit "ab]".
Proof.
  split; [reflexivity|].
  exact (proj2 (chip_label_first_occurrences (lit "[Source: a]b]"))
           (lit "a]b") eq_refl eq_refl).
Defined.

End ChipClaims.

Section RetrieverClaims.

Import Retriever.
Local Open Scope Q_scope.

Lemma similarity_positive d : 0 <= d -> 0 < similarityScore d.
Proof.
  intros H. unfold similarityScore. apply Qlt_shift_div_l.
  - apply Qlt_le_trans with (1 + 0); [reflexivity|].
    apply Qplus_le_r. exact H.
  - rewrite Qmult_0_l. reflexivity.
Qed.

Lemma similarity_at_most_one d : 0 <= d -> similarityScore d <= 1.
Proof.
  intros H. unfold similarityScore. apply Qle_shift_div_r.
  - apply Qlt_le_trans with (1 + 0); [reflexivity|].
    apply Qplus_le_r. exact H.
  - rewrite Qmult_1_l. rewrite <- (Qplus_0_r 1) at 1.
    apply Qplus_le_r. exact H.
Qed.

Lemma similarity_decreasing d d' :
  0 <= d -> d < d' -> similarityScore d' < similarityScore d.
Proof.
  intros H Hlt. unfold similarityScore.
  assert (Hd : 0 < 1 + d).
  { apply Qlt_le_trans with (1 + 0); [reflexivity|].
    apply Qplus_le_r. exact H. }
  assert (Hd' : 0 < 1 + d').
  { apply Qlt_trans with (1 + d); [exact Hd|]. apply Qplus_lt_r. exact Hlt. }
  apply Qlt_shift_div_r; [exact Hd'|].
  assert (Hx : 1 < (1 + d') / (1 + d)).
  { apply Qlt_shift_div_l; [exact Hd|].
    rewrite Qmult_1_l. apply Qplus_lt_r. exact Hlt. }
  eapply Qlt_le_trans; [exact Hx|].
  apply Qle_lteq. right. field.
  intros E. rewrite E in Hd. discriminate.
Qed.

(** C6: for every distance [d >= 0] the similarity score [1/(1+d)] is
    above 0 and at most 1 (so in the closed unit interval too), and a
    larger distance gives a strictly smaller score. *)
Theorem similarity_unit_interval_decreasing (d : Q) :
  0 <= d ->
  (0 < similarityScore d /\ similarityScore d <= 1)
  /\ 0 <= similarityScore d
  /\ forall d', d < d' -> similarityScore d' < similarityScore d.
Proof.
  intros H. repeat split.
  - now apply similarity_positive.
  - now apply similarity_at_most_one.
  - now apply Qlt_le_weak, similarity_positive.
  - intros d' Hlt. now apply similarity_decreasing.
Qed.

Lemma similarity_unit_interval_decreasing_witness :
  0 <= 1
  /\ (0 < similarityScore 1 /\ similarityScore 1 <= 1)
  /\ 0 <= similarityScore 1
  /\ forall d', 1 < d' -> similarityScore d' < similarityScore 1.
Proof.
  split; [discriminate | apply similarity_unit_interval_decreasing; discriminate].
Defined.

End RetrieverClaims.

Section OrchestratorClaims.

Import Orchestrator Examples.

Lemma run_attempting providers p : forall n i log,
  (i < List.length providers)%nat ->
  (List.length providers - i <= n)%nat ->
  map fst log = firstn i (map providerName providers) ->
  let mc := run (S n) providers p
              {| st := AttemptingProvider i; attempts := log |} in
  final (st mc) = true
  /\ exists j, map fst (attempts mc) = firstn j (map providerName providers).
Proof.
  induction n as [|n IH]; intros i log Hi Hn Hlog; [lia|].
  cbv zeta. change (run (S (S n)) providers p ?m)
    with (match step providers p m with
          | Some mc' => run (S n) providers p mc'
          | None => m
          end).
  unfold step. cbn [st attempts].
  destruct (nth_error providers i) as [pr|] eqn:E;
    [|apply nth_error_None in E; lia].
  assert (Hlog' : map fst (log ++ [(providerName pr, attempt pr p)])
                  = firstn (S i) (map providerName providers)).
  { rewrite map_app, Hlog. simpl.
    clear - E. revert i E. induction providers as [|q ps IHp]; intros [|i] E;
      try discriminate; simpl in *.
    - now injection E as ->.
    - now rewrite <- IHp. }
  destruct (attempt pr p) as [a|r].
  - simpl. split; [reflexivity | now exists (S i)].
  - destruct (Nat.ltb_spec (S i) (List.length providers)) as [Hlt|Hge].
    + apply IH; [exact Hlt | lia | exact Hlog'].
    + simpl. split; [reflexivity | now exists (S i)].
Qed.

(** Every query ends in [Succeeded] or [ExhaustedFailed], and the providers
    that were called are a prefix of the configured list: each at most
    once, in order. *)
Lemma generate_final providers p :
  final (st (generate providers p)) = true
  /\ exists j,
       map fst (attempts (generate providers p))
       = firstn j (map providerName providers).
Proof.
  unfold generate. destruct providers as [|pr ps].
  - simpl. split; [reflexivity | now exists 0%nat].
  - change (run (2 + List.length (pr :: ps)) (pr :: ps) p
              {| st := Idle; attempts := [] |})
      with (run (S (List.length (pr :: ps))) (pr :: ps) p
              {| st := AttemptingProvider 0; attempts := [] |}).
    apply run_attempting; simpl; [lia | lia | reflexivity].
Qed.

(** The query over two providers, by the outcomes of their attempts. *)
Lemma generate_two (A B : provider) p :
  generate [A; B] p =
  match attempt A p with
  | Success a =>
      {| st := Succeeded a; attempts := [(providerName A, Success a)] |}
  | Failure r =>
      match attempt B p with
      | Success b =>
          {| st := Succeeded b;
             attempts := [(providerName A, Failure r);
                          (providerName B, Success b)] |}
      | Failure r' =>
          {| st := ExhaustedFailed;
             attempts := [(providerName A, Failure r);
                          (providerName B, Failure r')] |}
      end
  end.
Proof.
  unfold generate. simpl. unfold step. simpl.
  destruct (attempt A p); simpl; [reflexivity|].
  unfold step. simpl. destruct (attempt B p); reflexivity.
Qed.

(** C8: with the providers [A, B], when A fails and B succeeds, the
    orchestrator calls A once, then B once, and ends with B's answer; when
    both fail, it raises [AllProvidersFailed] after one call of each.  For
    every provider list the calls of one query are a prefix of the list, so
    no provider is tried twice. *)
Theorem fallback_one_attempt_each (A B : provider) (p : prompt) :
  (forall r a,
      attempt A p = Failure r -> attempt B p = Success a ->
      st (generate [A; B] p) = Succeeded a
      /\ attempts (generate [A; B] p)
         = [(providerName A, Failure r); (providerName B, Success a)])
  /\ (forall r1 r2,
        attempt A p = Failure r1 -> attempt B p = Failure r2 ->
        raisesAllProvidersFailed (generate [A; B] p) = true
        /\ attempts (generate [A; B] p)
           = [(providerName A, Failure r1); (providerName B, Failure r2)])
  /\ (forall providers,
        final (st (generate providers p)) = true
        /\ exists j,
             map fst (attempts (generate providers p))
             = firstn j (map providerName providers)).
Proof.
  split; [|split].
  - intros r a HA HB. now rewrite generate_two, HA, HB.
  - intros r1 r2 HA HB. unfold raisesAllProvidersFailed.
    now rewrite generate_two, HA, HB.
  - intros providers. apply generate_final.
Qed.

Lemma fallback_one_attempt_each_witness :
  st (generate [failing; answering] "q"%string) = Succeeded "q"%string
  /\ attempts (generate [failing; answering] "q"%string)
     = [("gemini"%string, Failure "rate limit");
        ("openrouter"%string, Success "q"%string)].
Proof.
  exact (proj1 (fallback_one_attempt_each failing answering "q"%string)
           "rate limit"%string "q"%string eq_refl eq_refl).
Defined.

End OrchestratorClaims.

(** ** Facts about the matcher for every pattern *)

Section EngineFacts.

Import JS Regex Replace FormatSpec.

Lemma orElse_some a b r :
  orElse a b = Some r -> a = Some r \/ (a = None /\ b tt = Some r).
Proof. destruct a; simpl; intros H; [left | right]; auto. Qed.

Lemma star_greedy_suffix p c k res : forall x,
  star_greedy p x c k = Some res ->
  exists pre x', x = pre ++ x' /\ k x' c = Some res.
Proof.
  induction x as [|a x IH]; simpl.
  - intros H. now exists [], [].
  - destruct (p a).
    + intros H. apply orElse_some in H. destruct H as [H|[_ H]].
      * destruct (IH H) as (pre & x' & -> & Hk). now exists (a :: pre), x'.
      * now exists [], (a :: x).
    + intros H. now exists [], (a :: x).
Qed.

Lemma star_lazy_suffix p c k res : forall x,
  star_lazy p x c k = Some res ->
  exists pre x', x = pre ++ x' /\ k x' c = Some res.
Proof.
  induction x as [|a x IH]; rewrite star_lazy_eq; intros H;
    apply orElse_some in H; destruct H as [H|[_ H]];
    try (now exists [], []); try (now exists [], (a :: x)); try discriminate.
  destruct (p a); [|discriminate].
  destruct (IH H) as (pre & x' & -> & Hk). now exists (a :: pre), x'.
Qed.

(** A pattern without groups hands a suffix of its input, and the
    captures as they were, to its continuation. *)
Lemma m_suffix r : group_free r -> forall x c k res,
  m r x c k = Some res ->
  exists pre x', x = pre ++ x' /\ k x' c = Some res.
Proof.
  induction r as [p|r1 IH1 r2 IH2|r IH|p|p|i r IH|]; simpl; intros G x c k res H.
  - destruct x as [|a x]; [discriminate|]. destruct (p a); [|discriminate].
    now exists [a], x.
  - destruct G as [G1 G2].
    destruct (IH1 G1 _ _ _ _ H) as (pre1 & x1 & -> & H1).
    destruct (IH2 G2 _ _ _ _ H1) as (pre2 & x2 & -> & H2).
    exists (pre1 ++ pre2), x2. now rewrite app_assoc.
  - apply orElse_some in H. destruct H as [H|[_ H]].
    + now apply (IH G) in H.
    + now exists [], x.
  - eapply star_greedy_suffix; eassumption.
  - eapply star_lazy_suffix; eassumption.
  - destruct G.
  - destruct x; [|discriminate]. now exists [], [].
Qed.

Lemma free_of_cons p a x :
  free_of p (a :: x) = true -> p a = false /\ free_of p x = true.
Proof.
  unfold free_of. simpl. rewrite andb_true_iff, negb_true_iff. tauto.
Qed.

Lemma star_greedy_none p q c k : forall x,
  (forall y c', free_of q y = true -> k y c' = None) ->
  free_of q x = true -> star_greedy p x c k = None.
Proof.
  induction x as [|a x IH]; simpl; intros Hk Hx; [now apply Hk|].
  destruct (free_of_cons _ _ _ Hx) as [_ Hx'].
  destruct (p a); [|now apply Hk].
  rewrite (IH Hk Hx'). simpl. now apply Hk.
Qed.

Lemma star_lazy_none p q c k : forall x,
  (forall y c', free_of q y = true -> k y c' = None) ->
  free_of q x = true -> star_lazy p x c k = None.
Proof.
  induction x as [|a x IH]; intros Hk Hx; rewrite star_lazy_eq, (Hk _ _ Hx);
    simpl; [reflexivity|].
  destruct (free_of_cons _ _ _ Hx) as [_ Hx'].
  destruct (p a); [now apply IH | reflexivity].
Qed.

(** A continuation that fails on the strings without [q] makes every
    pattern fail on them. *)
Lemma m_none_cont q r : forall x c k,
  (forall y c', free_of q y = true -> k y c' = None) ->
  free_of q x = true -> m r x c k = None.
Proof.
  induction r as [p|r1 IH1 r2 IH2|r IH|p|p|i r IH|]; simpl; intros x c k Hk Hx.
  - destruct x as [|a x]; [reflexivity|].
    destruct (free_of_cons _ _ _ Hx) as [_ Hx'].
    destruct (p a); [now apply Hk | reflexivity].
  - apply IH1; [|exact Hx]. intros y c' Hy. now apply IH2.
  - rewrite (IH _ _ _ Hk Hx). simpl. now apply Hk.
  - now apply (star_greedy_none p q).
  - now apply (star_lazy_none p q).
  - apply IH; [|exact Hx]. intros y c' Hy. now apply Hk.
  - destruct x; [now apply Hk | reflexivity].
Qed.

(** A pattern that needs a code unit of [q] fails on a string without. *)
Lemma m_needs q r : needs q r -> forall x c k,
  free_of q x = true -> m r x c k = None.
Proof.
  induction r as [p|r1 IH1 r2 IH2|r IH|p|p|i r IH|]; simpl; intros N x c k Hx;
    try contradiction.
  - destruct x as [|a x]; [reflexivity|].
    destruct (free_of_cons _ _ _ Hx) as [Ha _].
    destruct (p a) eqn:E; [|reflexivity]. rewrite (N a E) in Ha. discriminate.
  - destruct N as [N|N].
    + now apply IH1.
    + apply (m_none_cont q); [|exact Hx]. intros y c' Hy. now apply IH2.
  - now apply IH.
Qed.

End EngineFacts.

(** ** Facts about global replacement *)

Section ReplaceFacts.

Import JS Regex Replace Format FormatSpec.

Lemma visible_app u v : visible (u ++ v) = visible u ++ visible v.
Proof. apply filter_app. Qed.

Lemma visible_blank s : forallb is_space s = true -> visible s = [].
Proof.
  unfold visible. induction s as [|a s IH]; simpl; [reflexivity|].
  rewrite andb_true_iff. intros [-> H]. simpl. now apply IH.
Qed.

Lemma visible_dropWhile s : visible (dropWhile is_space s) = visible s.
Proof.
  unfold visible. induction s as [|a s IH]; simpl; [reflexivity|].
  destruct (is_space a) eqn:E; simpl; [exact IH | now rewrite E].
Qed.

Lemma visible_rev s : visible (rev s) = rev (visible s).
Proof.
  induction s as [|a s IH]; [reflexivity|].
  change (rev (a :: s)) with (rev s ++ [a]).
  rewrite visible_app, IH. change (a :: s) with ([a] ++ s).
  rewrite (visible_app [a] s), rev_app_distr.
  f_equal. unfold visible. simpl. now destruct (is_space a).
Qed.

(** Trimming changes white space only. *)
Lemma visible_trim s : visible (trim s) = visible s.
Proof.
  unfold trim, trimEnd, trimStart.
  now rewrite visible_rev, visible_dropWhile, visible_rev, rev_involutive,
    visible_dropWhile.
Qed.

Lemma kept_refl s : Forall2 kept s s.
Proof. induction s; constructor; [now left | assumption]. Qed.

Lemma kept_eq s t : s = t -> Forall2 kept s t.
Proof. intros ->. apply kept_refl. Qed.

Lemma kept_trans s : forall t u,
  Forall2 kept s t -> Forall2 kept t u -> Forall2 kept s u.
Proof.
  induction s as [|a s IH]; intros t u H1 H2.
  - inversion H1; subst. inversion H2; subst. constructor.
  - inversion H1 as [|a' b s' t' Hab Hst]; subst.
    inversion H2 as [|b' c t'' u' Hbc Htu]; subst.
    constructor; [|now apply (IH t')].
    unfold kept in *.
    destruct Hab as [-> | [-> ->]]; [exact Hbc|].
    destruct Hbc as [-> | [Hb _]]; [now right | discriminate Hb].
Qed.

(** A replacement that keeps the visible code units of each match keeps
    those of the whole string. *)
Lemma replace_global_kept (here : matcher) :
  (forall prev x rep n,
      here prev x = Some (rep, n) ->
      (n <= List.length x)%nat
      /\ Forall2 kept (visible (firstn n x)) (visible rep)) ->
  forall x skip prev,
    (skip <= List.length x)%nat ->
    Forall2 kept (visible (skipn skip x))
      (visible (replace_global here skip prev x)).
Proof.
  intros Hh. induction x as [|a x IH]; intros skip prev Hs;
    cbn [replace_global].
  - simpl in Hs. destruct skip; [|lia].
    destruct (here prev []) as [[rep n]|] eqn:E; [|constructor].
    destruct (Hh _ _ _ _ E) as [Hn Hr]. now destruct n.
  - simpl in Hs. destruct skip as [|k]; [|apply IH; lia].
    cbn [skipn].
    destruct (here prev (a :: x)) as [[rep n]|] eqn:E.
    + destruct (Hh _ _ _ _ E) as [Hn Hr]. simpl in Hn.
      destruct n as [|k].
      * change (a :: replace_global here 0 (Some a) x)
          with ([a] ++ replace_global here 0 (Some a) x).
        change (a :: x) with ([a] ++ x).
        rewrite !visible_app.
        apply (Forall2_app Hr). apply Forall2_app; [apply kept_refl|].
        apply (IH 0%nat). lia.
      * rewrite <- (firstn_skipn (S k) (a :: x)) at 1.
        rewrite !visible_app. apply (Forall2_app Hr).
        apply (IH k). lia.
    + change (a :: replace_global here 0 (Some a) x)
        with ([a] ++ replace_global here 0 (Some a) x).
      change (a :: x) with ([a] ++ x).
      rewrite !visible_app. apply Forall2_app; [apply kept_refl|].
      apply (IH 0%nat). lia.
Qed.

(** Where the pattern never matches, the string is returned as it is. *)
Lemma replace_global_id (here : matcher) (Q : jsstring -> Prop) :
  (forall a y, Q (a :: y) -> Q y) ->
  (forall prev y, Q y -> here prev y = None) ->
  forall x prev, Q x -> replace_global here 0 prev x = x.
Proof.
  intros Ht Hh. induction x as [|a x IH]; intros prev Hx; simpl.
  - now rewrite (Hh prev [] Hx).
  - rewrite (Hh prev _ Hx). f_equal. apply IH. eapply Ht; eassumption.
Qed.

(** The match of [([^\n])(g2)]: one code unit and the match of [g2]. *)
Lemma after_char_match g2 sep x rep n :
  group_free g2 ->
  with_template (after_char g2) (groups_with sep) x = Some (rep, n) ->
  exists a p2 rest,
    x = a :: p2 ++ rest /\ rep = a :: sep ++ p2 /\ n = S (List.length p2).
Proof.
  intros G. unfold with_template, match_here, after_char.
  destruct (m _ x [] _) as [c|] eqn:E; [|discriminate].
  intros H. injection H as <- <-.
  simpl in E. destruct x as [|a x1]; [discriminate|].
  destruct (not_nl a); [|discriminate].
  destruct (m_suffix g2 G _ _ _ E) as (p2 & rest & -> & Hk).
  assert (E0 : consumed (a :: p2 ++ rest) rest = a :: p2)
    by (rewrite app_comm_cons; apply consumed_app).
  assert (E1 : consumed (a :: p2 ++ rest) (p2 ++ rest) = [a])
    by (apply (consumed_app [a])).
  rewrite E0, E1, consumed_app in Hk. injection Hk as <-.
  exists a, p2, rest. unfold groups_with. simpl. repeat split.
Qed.

End ReplaceFacts.

(** ** Properties of [formatContent] *)

Section FormatFacts.

Import JS Regex Replace Format FormatSpec.
Local Open Scope N_scope.

Lemma star_greedy_all p c (k : cont) :
  (forall y, k y c <> None) ->
  forall x, star_greedy p x c k = k (dropWhile p x) c.
Proof.
  intros Hk. induction x as [|a x IH]; simpl; [reflexivity|].
  destruct (p a); [|reflexivity]. rewrite IH.
  destruct (k (dropWhile p x) c) eqn:E; [reflexivity|]. now apply Hk in E.
Qed.

(** The match of [\n{3,}] is the whole run of line feeds at the index,
    when it has three of them. *)
Lemma newlines3_match x :
  match_here newlines3 x =
  if Nat.leb 3 (lead x) then Some [(0%nat, takeWhile is_nl x)] else None.
Proof.
  unfold match_here, newlines3, lead, Plus.
  destruct x as [|a [|b [|c x]]]; simpl;
    repeat match goal with
           | |- context [is_nl ?u] => destruct (is_nl u) eqn:?; simpl
           end; try reflexivity.
  rewrite star_greedy_all by discriminate.
  do 2 f_equal. f_equal.
  change (a :: b :: c :: x) with ([a; b; c] ++ x).
  rewrite <- (take_drop is_nl x) at 1.
  rewrite app_assoc. apply consumed_app.
Qed.

Lemma bullet_match t x rep n :
  with_template bullet (constant t) x = Some (rep, n) ->
  exists b w rest,
    x = b :: w :: rest /\ is_bullet b = true /\ is_space w = true
    /\ rep = t /\ n = 2%nat.
Proof.
  unfold with_template, match_here, bullet. simpl.
  destruct x as [|b [|w rest]]; try discriminate;
    destruct (is_bullet b) eqn:Eb; try discriminate.
  destruct (is_space w) eqn:Ew; [|discriminate].
  intros H. injection H as <- <-. exists b, w, rest.
  change (b :: w :: rest) with ([b; w] ++ rest). now rewrite consumed_app.
Qed.

Lemma group_free_bold_inside : group_free bold_colon_inside.
Proof. simpl. tauto. Qed.
Lemma group_free_bold_outside : group_free bold_colon_outside.
Proof. simpl. tauto. Qed.
Lemma group_free_numbered : group_free numbered.
Proof. simpl. tauto. Qed.
Lemma group_free_bullet : group_free bullet.
Proof. simpl. tauto. Qed.
Lemma group_free_header : group_free header.
Proof. simpl. tauto. Qed.

Lemma firstn_exact (u v : jsstring) : firstn (List.length u) (u ++ v) = u.
Proof. induction u; simpl; [now destruct v | now f_equal]. Qed.

(** A break inserted in front of a construct changes white space only. *)
Lemma after_char_kept g2 sep s :
  group_free g2 -> forallb is_space sep = true ->
  Forall2 kept (visible s)
    (visible (replace_regex (after_char g2) (groups_with sep) s)).
Proof.
  intros G Hsep. unfold replace_regex.
  apply (@replace_global_kept _) with (skip := 0%nat); [|simpl; lia].
  intros prev x rep n H.
  destruct (@after_char_match _ _ _ _ _ G H) as (a & p2 & rest & -> & -> & ->).
  split; [simpl; rewrite length_app; lia|].
  change (a :: p2 ++ rest) with ((a :: p2) ++ rest).
  change (S (List.length p2)) with (List.length (a :: p2)).
  rewrite firstn_exact. apply kept_eq.
  change (a :: sep ++ p2) with ([a] ++ sep ++ p2).
  change (a :: p2) with ([a] ++ p2).
  now rewrite !visible_app, (visible_blank _ Hsep).
Qed.

(** The list marker at the start of a line: "-" stays, the bullet becomes
    "-", and the white space behind it becomes a space. *)
Lemma bullet_kept b w :
  is_bullet b = true -> is_space w = true ->
  Forall2 kept (visible [b; w]) (visible (lit "- ")).
Proof.
  intros Hb Hw. unfold visible. simpl. rewrite Hw.
  unfold is_bullet, chr, cu_eqb in Hb. simpl in Hb.
  apply orb_true_iff in Hb. rewrite !N.eqb_eq in Hb.
  destruct Hb as [-> | ->]; simpl; (constructor; [|constructor]).
  - now left.
  - right. split; reflexivity.
Qed.

Lemma line_start_kept s :
  Forall2 kept (visible s)
    (visible (replace_line_start bullet (constant (lit "- ")) s)).
Proof.
  unfold replace_line_start.
  apply (@replace_global_kept _) with (skip := 0%nat); [|simpl; lia].
  intros prev x rep n H. destruct (at_line_start prev); [|discriminate].
  destruct (@bullet_match _ _ _ _ H) as (b & w & rest & -> & Hb & Hw & -> & ->).
  split; [simpl; lia|]. simpl firstn. now apply bullet_kept.
Qed.

Lemma takeWhile_forallb p (s : jsstring) : forallb p (takeWhile p s) = true.
Proof.
  induction s as [|a s IH]; simpl; [reflexivity|].
  destruct (p a) eqn:E; simpl; [now rewrite E|reflexivity].
Qed.

Lemma nl_space a : is_nl a = true -> is_space a = true.
Proof.
  unfold is_nl, nl, cu_eqb. rewrite N.eqb_eq. now intros ->.
Qed.

Lemma newlines3_here x rep n :
  with_template newlines3 (constant [nl; nl]) x = Some (rep, n) ->
  rep = [nl; nl] /\ n = lead x /\ (3 <= lead x)%nat.
Proof.
  unfold with_template. rewrite newlines3_match.
  destruct (Nat.leb_spec 3 (lead x)) as [Hle|Hgt]; [|discriminate].
  intros H. injection H as <- <-. simpl. auto.
Qed.

Lemma newlines3_kept s :
  Forall2 kept (visible s)
    (visible (replace_regex newlines3 (constant [nl; nl]) s)).
Proof.
  unfold replace_regex.
  apply (@replace_global_kept _) with (skip := 0%nat); [|simpl; lia].
  intros prev x rep n H. destruct (@newlines3_here _ _ _ H) as (-> & -> & _).
  unfold lead. split.
  - rewrite <- (take_drop is_nl x) at 2. rewrite length_app. lia.
  - rewrite <- (take_drop is_nl x) at 2. rewrite firstn_exact.
    rewrite (visible_blank (takeWhile is_nl x)); [constructor|].
    eapply forallb_forall. intros a Ha. apply nl_space.
    exact (proj1 (forallb_forall _ _) (takeWhile_forallb is_nl x) a Ha).
Qed.

(** The steps of [formatContent] together: every visible code unit of the
    content stands at its place in the result, "-" for a bullet at most. *)
Lemma format_steps_kept s : Forall2 kept (visible s) (visible (format_steps s)).
Proof.
  unfold format_steps. cbv zeta. rewrite visible_trim.
  eapply kept_trans; [|apply newlines3_kept].
  eapply kept_trans;
    [|apply (@after_char_kept _ _ _ group_free_header); reflexivity].
  eapply kept_trans; [|apply line_start_kept].
  eapply kept_trans;
    [|apply (@after_char_kept _ _ _ group_free_bullet); reflexivity].
  eapply kept_trans;
    [|apply (@after_char_kept _ _ _ group_free_numbered); reflexivity].
  eapply kept_trans;
    [|apply (@after_char_kept _ _ _ group_free_bold_outside); reflexivity].
  apply (@after_char_kept _ _ _ group_free_bold_inside); reflexivity.
Qed.

(** *** Text without markup *)

Lemma needs_markup_bold_inside : needs is_markup (after_char bold_colon_inside).
Proof.
  simpl. right. left. intros a H. unfold is_markup. now rewrite H.
Qed.

Lemma needs_markup_bold_outside : needs is_markup (after_char bold_colon_outside).
Proof.
  simpl. right. left. intros a H. unfold is_markup. now rewrite H.
Qed.

Lemma needs_markup_numbered : needs is_markup (after_char numbered).
Proof.
  simpl. right. left. left. intros a H. unfold is_markup. rewrite H.
  now rewrite !orb_true_r.
Qed.

Lemma needs_markup_bullet : needs is_markup bullet.
Proof.
  simpl. left. intros a H. unfold is_markup. rewrite H.
  now rewrite !orb_true_r.
Qed.

Lemma needs_markup_header : needs is_markup (after_char header).
Proof.
  simpl. right. left. left. intros a H. unfold is_markup. rewrite H.
  now rewrite !orb_true_r.
Qed.

Lemma free_of_tail q a y : free_of q (a :: y) = true -> free_of q y = true.
Proof. intros H. now destruct (free_of_cons _ _ _ H). Qed.

Lemma with_template_needs q r t y :
  needs q r -> free_of q y = true -> with_template r t y = None.
Proof.
  intros N H. unfold with_template, match_here. now rewrite (@m_needs q r N).
Qed.

Lemma replace_regex_free q r t s :
  needs q r -> free_of q s = true -> replace_regex r t s = s.
Proof.
  intros N H. unfold replace_regex.
  apply (@replace_global_id _ (fun y => free_of q y = true)).
  - apply free_of_tail.
  - intros prev y Hy. now apply (@with_template_needs q).
  - exact H.
Qed.

Lemma replace_line_start_free q r t s :
  needs q r -> free_of q s = true -> replace_line_start r t s = s.
Proof.
  intros N H. unfold replace_line_start.
  apply (@replace_global_id _ (fun y => free_of q y = true)).
  - apply free_of_tail.
  - intros prev y Hy. destruct (at_line_start prev); [|reflexivity].
    now apply (@with_template_needs q).
  - exact H.
Qed.

Lemma lead_cons a s :
  lead (a :: s) = if is_nl a then S (lead s) else 0%nat.
Proof. unfold lead. simpl. now destruct (is_nl a). Qed.

Lemma no3_tail a y : no3 (a :: y) = true -> no3 y = true.
Proof. simpl no3. rewrite andb_true_iff. tauto. Qed.

Lemma no3_lead y : no3 y = true -> (lead y <= 2)%nat.
Proof.
  destruct y as [|a y]; [unfold lead; simpl; lia|].
  simpl no3. rewrite andb_true_iff, Nat.leb_le. tauto.
Qed.

Lemma newlines3_none t y :
  no3 y = true -> with_template newlines3 t y = None.
Proof.
  intros H. unfold with_template. rewrite newlines3_match.
  apply no3_lead in H. destruct (Nat.leb_spec 3 (lead y)); [lia|reflexivity].
Qed.

Lemma replace_newlines3_id t s :
  no3 s = true -> replace_regex newlines3 t s = s.
Proof.
  intros H. unfold replace_regex.
  apply (@replace_global_id _ (fun y => no3 y = true)).
  - apply no3_tail.
  - intros prev y Hy. now apply newlines3_none.
  - exact H.
Qed.

Lemma format_steps_plain s :
  free_of is_markup s = true -> no3 s = true -> format_steps s = trim s.
Proof.
  intros Hm Hn. unfold format_steps. cbv zeta.
  rewrite (@replace_regex_free is_markup _ _ _ needs_markup_bold_inside Hm).
  rewrite (@replace_regex_free is_markup _ _ _ needs_markup_bold_outside Hm).
  rewrite (@replace_regex_free is_markup _ _ _ needs_markup_numbered Hm).
  rewrite (@replace_regex_free is_markup (after_char bullet) _ _
             (or_intror needs_markup_bullet) Hm).
  rewrite (@replace_line_start_free is_markup _ _ _ needs_markup_bullet Hm).
  rewrite (@replace_regex_free is_markup _ _ _ needs_markup_header Hm).
  now rewrite (@replace_newlines3_id _ _ Hn).
Qed.

(** *** Runs of line feeds *)

Lemma replace_newlines3_no3 : forall x skip prev,
  skip = 0%nat \/ skip = lead x ->
  let out :=
    replace_global (fun _ y => with_template newlines3 (constant [nl; nl]) y)
      skip prev x in
  no3 out = true /\ (lead out <= 2)%nat /\ (lead out <= lead x - skip)%nat.
Proof.
  induction x as [|a x IH]; intros skip prev Hs; cbv zeta.
  - cbn [replace_global]. destruct skip as [|k];
      [|unfold lead; simpl; auto with arith].
    rewrite newlines3_none by reflexivity. unfold lead. simpl. auto with arith.
  - cbn [replace_global]. rewrite (lead_cons a x) in *.
    destruct skip as [|k].
    + destruct (with_template newlines3 (constant [nl; nl]) (a :: x))
        as [[rep n]|] eqn:E.
      * destruct (@newlines3_here _ _ _ E) as (-> & -> & Hl).
        rewrite (lead_cons a x) in *.
        destruct (is_nl a) eqn:Ea; [|lia].
        destruct (IH (lead x) (Some a) (or_intror eq_refl)) as (H1 & H2 & H3).
        cbv zeta in *.
        set (out := replace_global _ (lead x) (Some a) x) in *.
        assert (H0 : lead out = 0%nat) by lia.
        change ([nl; nl] ++ out) with (nl :: nl :: out).
        cbn [no3]. rewrite !lead_cons. change (is_nl nl) with true.
        rewrite H0, H1. repeat split; auto with arith; lia.
      * destruct (IH 0%nat (Some a) (or_introl eq_refl)) as (H1 & H2 & H3).
        cbv zeta in *.
        set (out := replace_global _ 0 (Some a) x) in *.
        unfold with_template in E. rewrite newlines3_match in E.
        rewrite (lead_cons a x) in E.
        cbn [no3]. rewrite !lead_cons, H1, andb_true_r.
        destruct (is_nl a) eqn:Ea.
        -- destruct (Nat.leb_spec 3 (S (lead x))); [discriminate|].
           repeat split; [apply Nat.leb_le|..]; lia.
        -- repeat split; auto with arith.
    + destruct Hs as [Hs|Hs]; [discriminate|].
      destruct (is_nl a) eqn:Ea; [|discriminate]. injection Hs as ->.
      destruct (IH (lead x) (Some a) (or_intror eq_refl)) as (H1 & H2 & H3).
      cbv zeta in *. repeat split; auto; lia.
Qed.

Lemma no3_suffix u v : no3 (u ++ v) = true -> no3 v = true.
Proof.
  induction u as [|a u IH]; [auto|]. intros H. apply IH.
  change ((a :: u) ++ v) with (a :: (u ++ v)) in H. now apply no3_tail in H.
Qed.

Lemma lead_app_le u v : (lead u <= lead (u ++ v))%nat.
Proof.
  induction u as [|a u IH]; [unfold lead; simpl; lia|].
  change ((a :: u) ++ v) with (a :: (u ++ v)). rewrite !lead_cons.
  destruct (is_nl a); lia.
Qed.

Lemma no3_prefix u v : no3 (u ++ v) = true -> no3 u = true.
Proof.
  induction u as [|a u IH]; [reflexivity|].
  change ((a :: u) ++ v) with (a :: (u ++ v)). simpl no3.
  rewrite !andb_true_iff, !Nat.leb_le. intros [Hl Hn]. split; [|now apply IH].
  pose proof (lead_app_le (a :: u) v) as Hle.
  change ((a :: u) ++ v) with (a :: (u ++ v)) in Hle. lia.
Qed.

Lemma dropWhile_suffix p (s : jsstring) : exists u, s = u ++ dropWhile p s.
Proof. exists (takeWhile p s). symmetry. apply take_drop. Qed.

Lemma trimEnd_prefix s : exists w, s = trimEnd s ++ w.
Proof.
  unfold trimEnd. exists (rev (takeWhile is_space (rev s))).
  rewrite <- rev_app_distr, take_drop. symmetry. apply rev_involutive.
Qed.

Lemma no3_trim s : no3 s = true -> no3 (trim s) = true.
Proof.
  intros H. unfold trim, trimStart.
  destruct (dropWhile_suffix is_space s) as [u Hu].
  rewrite Hu in H. apply no3_suffix in H.
  destruct (trimEnd_prefix (dropWhile is_space s)) as [w Hw].
  rewrite Hw in H. now apply no3_prefix in H.
Qed.

(** *** The result is trimmed *)

Lemma dropWhile_head p (s : jsstring) a t :
  dropWhile p s = a :: t -> p a = false.
Proof.
  induction s as [|b s IH]; simpl; [discriminate|].
  destruct (p b) eqn:E; [exact IH|]. intros H. injection H as <- <-. exact E.
Qed.

Lemma dropWhile_idem p (s : jsstring) :
  dropWhile p (dropWhile p s) = dropWhile p s.
Proof.
  destruct (dropWhile p s) as [|a t] eqn:E; [reflexivity|].
  simpl. now rewrite (dropWhile_head _ _ E).
Qed.

Lemma dropWhile_last p (r : jsstring) a :
  p a = false -> exists w, dropWhile p (r ++ [a]) = w ++ [a].
Proof.
  intros Ha. induction r as [|b r IH]; simpl.
  - rewrite Ha. now exists [].
  - destruct (p b); [exact IH|]. now exists (b :: r).
Qed.

Lemma trim_idem s : trim (trim s) = trim s.
Proof.
  unfold trim, trimStart.
  set (t := dropWhile is_space s).
  assert (Ht : dropWhile is_space (trimEnd t) = trimEnd t).
  { destruct t as [|a t'] eqn:E; [reflexivity|].
    pose proof (dropWhile_head _ _ E) as Ha.
    unfold trimEnd. simpl rev.
    destruct (dropWhile_last is_space (rev t') a Ha) as [w ->].
    rewrite rev_app_distr. simpl. now rewrite Ha. }
  rewrite Ht. unfold trimEnd at 1. unfold trimEnd at 1.
  now rewrite rev_involutive, dropWhile_idem.
Qed.

End FormatFacts.

(** ** The shape of a page indicator and the wire format *)

Section WireFormat.

Import JS Regex Citations Staged Scan.
Local Open Scope N_scope.







Lemma skip1_cases p (s : jsstring) :
  skip1 p s = s \/ exists a, p a = true /\ s = a :: skip1 p s.
Proof.
  destruct s as [|a s]; simpl; [now left|].
  destruct (p a) eqn:E; [right; now exists a | now left].
Qed.

Lemma page_word_inv s s' :
  page_word s = Some s' ->
  exists a1 a2 a3 a4,
    s = a1 :: a2 :: a3 :: a4 :: s'
    /\ chr_i "P" a1 = true /\ chr_i "a" a2 = true
    /\ chr_i "g" a3 = true /\ chr_i "e" a4 = true.
Proof.
  unfold page_word. destruct s as [|a1 [|a2 [|a3 [|a4 s]]]]; try discriminate.
  destruct (chr_i "P" a1 && chr_i "a" a2 && chr_i "g" a3 && chr_i "e" a4)
    eqn:E; [|discriminate].
  intros H. injection H as <-. rewrite !andb_true_iff in E.
  exists a1, a2, a3, a4. tauto.
Qed.


Lemma suffix_trans (a b c : jsstring) :
  (exists w, b = w ++ c) -> (exists w, a = w ++ b) -> exists w, a = w ++ c.
Proof.
  intros [w1 ->] [w2 ->]. exists (w2 ++ w1). apply app_assoc.
Qed.

Lemma skip1_suffix p (s : jsstring) : exists w, s = w ++ skip1 p s.
Proof.
  destruct (skip1_cases p s) as [H|(c & _ & H)].
  - exists []. now rewrite H.
  - now exists [c].
Qed.

Lemma page_word_suffix s s' : page_word s = Some s' -> exists w, s = w ++ s'.
Proof.
  intros H. destruct (page_word_inv _ H) as (a1 & a2 & a3 & a4 & -> & _).
  now exists [a1; a2; a3; a4].
Qed.

(** A page indicator ends with a digit or a closing parenthesis. *)
Lemma indicator_last t n :
  indicator t = Some n ->
  exists u c, t = u ++ [c] /\ (is_digit c = true \/ chr ")" c = true).
Proof.
  unfold indicator.
  set (t1 := skip1 is_comma t).
  set (t2 := dropWhile is_space t1).
  set (t3 := skip1 (chr "(") t2).
  destruct (page_word t3) as [t4|] eqn:Ew; [|discriminate].
  set (t5 := dropWhile is_space t4).
  destruct (takeWhile is_digit t5) as [|d ds] eqn:Ed; [discriminate|].
  destruct (skip1 (chr ")") (dropWhile is_digit t5)) eqn:E6; [|discriminate].
  intros _.
  assert (S5 : exists w, t = w ++ t5).
  { eapply suffix_trans; [apply (dropWhile_suffix is_space t4)|].
    eapply suffix_trans; [apply (page_word_suffix _ Ew)|].
    eapply suffix_trans; [apply (skip1_suffix (chr "(") t2)|].
    eapply suffix_trans; [apply (dropWhile_suffix is_space t1)|].
    apply skip1_suffix. }
  clearbody t5. clear Ew. clearbody t3. clearbody t2. clearbody t1.
  destruct S5 as [w ->].
  assert (E5 : t5 = (d :: ds) ++ dropWhile is_digit t5)
    by (rewrite <- Ed; symmetry; apply take_drop).
  assert (Hd : forallb is_digit (d :: ds) = true)
    by (rewrite <- Ed; apply takeWhile_forallb).
  destruct (skip1_cases (chr ")") (dropWhile is_digit t5)) as [H|(c & Hc & H)];
    rewrite E6 in H.
  - rewrite <- H, app_nil_r in E5. rewrite E5.
    destruct (exists_last (l := d :: ds)) as (u & c & Eu); [discriminate|].
    rewrite Eu in *. exists (w ++ u), c. rewrite app_assoc. split; [reflexivity|].
    left. rewrite forallb_app in Hd. simpl in Hd.
    apply andb_true_iff in Hd. destruct Hd as [_ Hd].
    now rewrite andb_true_r in Hd.
  - rewrite H in E5. rewrite E5. exists (w ++ d :: ds), c.
    rewrite <- app_assoc. auto.
Qed.





Lemma find_indicator_none name :
  (forall u c, name = u ++ [c] -> is_digit c = false /\ chr ")" c = false) ->
  find_indicator name = None.
Proof.
  intros H. destruct (find_indicator name) as [[pre n]|] eqn:E; [|reflexivity].
  destruct (find_indicator_split _ E) as (t & -> & Ht).
  destruct (indicator_last _ Ht) as (u & c & -> & Hc).
  destruct (H (pre ++ u) c) as [H1 H2]; [now rewrite app_assoc|].
  destruct Hc; congruence.
Qed.

End WireFormat.

(** ** More facts about the grouping loop *)

Section LoopFacts.

Import JS Citations Staged Scan Grouping.

Lemma own_set_other o k e k' :
  str_eqb k' k = false -> own (set o k e) k' = own o k'.
Proof.
  intros Hk. induction o as [|[k0 e0] o IH]; simpl.
  - now rewrite Hk.
  - destruct (str_eqb k k0) eqn:E; simpl.
    + apply str_eqb_eq in E. subst k0. now rewrite Hk.
    + now rewrite IH.
Qed.

Lemma pages_of_set o k e k' :
  pages_of (set o k e) k' = if str_eqb k' k then pages e else pages_of o k'.
Proof.
  unfold pages_of. destruct (str_eqb k' k) eqn:E.
  - apply str_eqb_eq in E. subst k'. now rewrite own_set.
  - now rewrite own_set_other.
Qed.

Lemma In_Set_add x p s : In x (Set_add p s) <-> x = p \/ In x s.
Proof.
  unfold Set_add. destruct (existsb (str_eqb p) s) eqn:E.
  - split; [tauto|]. intros [->|H]; [|exact H]. now apply mem_In.
  - rewrite in_app_iff. simpl. intuition auto.
Qed.

(** The pages of every key after one source string. *)
Lemma step_pages o s o' :
  step o s = Some o' ->
  forall k,
    pages_of o' k =
    if str_eqb k (keyOf s)
    then match truthy_page (pageOf s) with
         | Some p => Set_add p (pages_of o k)
         | None => pages_of o k
         end
    else pages_of o k.
Proof.
  unfold step, get. intros H k.
  destruct (own o (keyOf s)) as [e|] eqn:Eo;
    [|destruct (inherited (keyOf s)) eqn:Ei];
    cbn [truthy negb] in H; rewrite ?Eo, ?Ei, ?own_set in H;
    destruct (truthy_page (pageOf s)) as [page|];
    try discriminate; injection H as <-;
    rewrite ?pages_of_set; destruct (str_eqb k (keyOf s)) eqn:Ek;
    try reflexivity; cbn [pages].
  - apply str_eqb_eq in Ek. subst k. unfold pages_of. now rewrite Eo.
  - apply str_eqb_eq in Ek. subst k. unfold pages_of. now rewrite Eo.
  - apply str_eqb_eq in Ek. subst k. unfold pages_of. now rewrite Eo.
Qed.

Lemma forEach_pages sources : forall o o',
  forEach sources o = Some o' ->
  forall k p,
    In p (pages_of o' k) <->
    In p (pages_of o k)
    \/ exists s, In s sources /\ keyOf s = k /\ truthy_page (pageOf s) = Some p.
Proof.
  induction sources as [|s rest IH]; intros o o'; simpl.
  - intros H k p. injection H as <-. split; [tauto|].
    intros [H|(s & [] & _)]. exact H.
  - destruct (step o s) as [o1|] eqn:Es; [|discriminate].
    intros H k p. rewrite (IH _ _ H k p), (step_pages _ _ Es k).
    destruct (str_eqb k (keyOf s)) eqn:Ek.
    + apply str_eqb_eq in Ek. subst k.
      destruct (truthy_page (pageOf s)) as [q|] eqn:Eq.
      * rewrite In_Set_add. split.
        -- intros [[->|H1]|(s' & Hs' & Hk & Hp)]; auto.
           ++ right. exists s. auto.
           ++ right. exists s'. auto.
        -- intros [H1|(s' & [<-|Hs'] & Hk & Hp)]; auto.
           ++ left. left. congruence.
           ++ right. exists s'. auto.
      * split.
        -- intros [H1|(s' & Hs' & Hk & Hp)]; auto. right. exists s'. auto.
        -- intros [H1|(s' & [<-|Hs'] & Hk & Hp)]; auto; [congruence|].
           right. exists s'. auto.
    + apply str_eqb_neq in Ek. split.
      * intros [H1|(s' & Hs' & Hk & Hp)]; auto. right. exists s'. auto.
      * intros [H1|(s' & [<-|Hs'] & Hk & Hp)]; auto; [congruence|].
        right. exists s'. auto.
Qed.

Lemma step_none o s :
  step o s = None <->
  own o (keyOf s) = None /\ inherited (keyOf s) = true
  /\ truthy_page (pageOf s) <> None.
Proof.
  unfold step, get.
  destruct (own o (keyOf s)) as [e|] eqn:Eo;
    [|destruct (inherited (keyOf s)) eqn:Ei];
    cbn [truthy negb]; rewrite ?Eo, ?Ei, ?own_set;
    destruct (truthy_page (pageOf s)) as [page|];
    split; try discriminate; try tauto; try (intros (H1 & H2 & H3); congruence).
  intros _. repeat split; discriminate.
Qed.

Lemma inherited_not_own o k :
  forallb (fun k => negb (inherited k)) (map fst o) = true ->
  inherited k = true -> own o k = None.
Proof.
  intros Ho Hk. apply own_mem. destruct (mem k (map fst o)) eqn:E; [|reflexivity].
  apply mem_In in E. pose proof (proj1 (forallb_forall _ _) Ho k E) as H.
  simpl in H. rewrite Hk in H. discriminate.
Qed.

Lemma step_keeps_own o s o' :
  step o s = Some o' ->
  forallb (fun k => negb (inherited k)) (map fst o) = true ->
  forallb (fun k => negb (inherited k)) (map fst o') = true.
Proof.
  intros H Ho. rewrite (keys_step _ _ H).
  destruct (mem (keyOf s) (map fst o)); simpl; [exact Ho|].
  destruct (inherited (keyOf s)) eqn:Ei; [exact Ho|].
  rewrite forallb_app, Ho. simpl. now rewrite Ei.
Qed.

Lemma forEach_none sources : forall o,
  forallb (fun k => negb (inherited k)) (map fst o) = true ->
  forEach sources o = None <->
  exists s, In s sources /\ inherited (keyOf s) = true
            /\ truthy_page (pageOf s) <> None.
Proof.
  induction sources as [|s rest IH]; intros o Ho; simpl.
  - split; [discriminate|]. intros (s & [] & _).
  - destruct (step o s) as [o1|] eqn:Es.
    + rewrite (IH o1 (step_keeps_own _ _ Es Ho)). split.
      * intros (s' & Hs' & H). exists s'. auto.
      * intros (s' & [<-|Hs'] & Hi & Hp); [|exists s'; auto].
        assert (Hn : step o s = None)
          by (apply step_none; auto using inherited_not_own).
        congruence.
    + split; [|reflexivity]. intros _. apply step_none in Es.
      exists s. tauto.
Qed.

End LoopFacts.

(** ** Facts about code blocks and chips *)

Section BlockFacts.

Import JS Regex Citations Chips CodeBlock.

Lemma literal_m w r : forall x c k,
  m (literal w r) x c k =
  match startsWith (lit w) x with
  | Some x' => m r x' c k
  | None => None
  end.
Proof.
  induction w as [|a w IH]; intros x c k; [reflexivity|].
  simpl. destruct x as [|b x]; [reflexivity|].
  unfold chr, cu_eqb. rewrite (N.eqb_sym b).
  destruct (N.eqb (N_of_ascii a) b); [apply IH | reflexivity].
Qed.

(** The pattern at one index: the text "language-" and the longest run of
    word characters behind it. *)
Lemma language_here x :
  m languageRe x [] (fun _ c => Some c) =
  match startsWith (lit "language-") x with
  | Some x' =>
      match takeWhile is_word x' with
      | [] => None
      | (_ :: _) as l => Some [(1%nat, l)]
      end
  | None => None
  end.
Proof.
  unfold languageRe. rewrite literal_m.
  destruct (startsWith (lit "language-") x) as [x'|]; [|reflexivity].
  unfold Plus.
  change (m (Group 1 (Seq (Class is_word) (Star is_word))) x' []
            (fun _ c => Some c))
    with (match x' with
          | a :: y =>
              if is_word a
              then star_greedy is_word y []
                     (fun z c' => Some ((1%nat, consumed x' z) :: c'))
              else None
          | [] => None
          end).
  destruct x' as [|a y]; [reflexivity|]. simpl takeWhile.
  destruct (is_word a); [|reflexivity].
  rewrite star_greedy_all by discriminate.
  rewrite <- (take_drop is_word y) at 1.
  now rewrite app_comm_cons, consumed_app.
Qed.

Lemma takeWhile_next p (s : jsstring) :
  match dropWhile p s with
  | c :: _ => p c = false
  | [] => True
  end.
Proof.
  destruct (dropWhile p s) as [|c t] eqn:E; [exact I|].
  exact (dropWhile_head _ _ E).
Qed.

Lemma takeWhile_run p (l post : jsstring) :
  forallb p l = true ->
  match post with c :: _ => p c = false | [] => True end ->
  takeWhile p (l ++ post) = l.
Proof.
  intros Hl Hp. induction l as [|a l IH]; simpl in *.
  - destruct post as [|c post]; [reflexivity | simpl; now rewrite Hp].
  - apply andb_true_iff in Hl. destruct Hl as [-> Hl]. f_equal. now apply IH.
Qed.

Lemma takeWhile_nil p (w : jsstring) :
  takeWhile p w = [] ->
  match w with a :: _ => p a = false | [] => True end.
Proof.
  destruct w as [|a w]; [trivial|]. simpl.
  destruct (p a); [discriminate | reflexivity].
Qed.

Lemma language_at_start w :
  startsWith (lit "language-") (lit "language-" ++ w) = Some w.
Proof. reflexivity. Qed.

(** What is found stands behind the first "language-" that has a word
    character behind it, and is the whole run of word characters there. *)
Lemma language_sound s : forall l,
  language (Some s) = Some l ->
  exists pre post,
    s = pre ++ lit "language-" ++ l ++ post
    /\ l <> [] /\ forallb is_word l = true
    /\ match post with c :: _ => is_word c = false | [] => True end
    /\ forall u w,
         s = u ++ lit "language-" ++ w ->
         (List.length u < List.length pre)%nat ->
         match w with a :: _ => is_word a = false | [] => True end.
Proof.
  unfold language. induction s as [|a s IH]; intros l;
    rewrite exec_eq, language_here.
  - simpl. discriminate.
  - destruct (startsWith (lit "language-") (a :: s)) as [x'|] eqn:E.
    + destruct (takeWhile is_word x') as [|b l'] eqn:El.
      * simpl. intros H.
        destruct (IH _ H) as (pre & post & Hs & Hl & Hw & Hp & Hfirst).
        exists (a :: pre), post. rewrite Hs at 1. repeat split; trivial.
        intros [|a' u] w Huw Hlt.
        -- rewrite Huw in E. change (Some w = Some x') in E.
           injection E as <-. now apply takeWhile_nil.
        -- injection Huw as _ Huw. apply (Hfirst u w Huw). simpl in Hlt. lia.
      * simpl. intros H. injection H as <-.
        apply startsWith_app in E. exists [], (dropWhile is_word x').
        repeat split.
        -- rewrite E. rewrite <- (take_drop is_word x') at 1.
           now rewrite El.
        -- discriminate.
        -- rewrite <- El. apply takeWhile_forallb.
        -- apply takeWhile_next.
        -- intros u w _ Hlt. simpl in Hlt. lia.
    + simpl. intros H.
      destruct (IH _ H) as (pre & post & Hs & Hl & Hw & Hp & Hfirst).
      exists (a :: pre), post. rewrite Hs at 1. repeat split; trivial.
      intros [|a' u] w Huw Hlt.
      -- rewrite Huw in E. change (Some w = None) in E. discriminate E.
      -- injection Huw as _ Huw. apply (Hfirst u w Huw). simpl in Hlt. lia.
Qed.

(** The run of word characters behind the first such place is found. *)
Lemma language_first pre l post :
  l <> [] -> forallb is_word l = true ->
  match post with c :: _ => is_word c = false | [] => True end ->
  (forall u w,
      pre ++ lit "language-" ++ l ++ post = u ++ lit "language-" ++ w ->
      (List.length u < List.length pre)%nat ->
      match w with a :: _ => is_word a = false | [] => True end) ->
  language (Some (pre ++ lit "language-" ++ l ++ post)) = Some l.
Proof.
  intros Hl Hw Hp. unfold language. induction pre as [|b pre IH];
    intros Hfirst; rewrite exec_eq, language_here.
  - change ([] ++ lit "language-" ++ l ++ post)
      with (lit "language-" ++ l ++ post).
    rewrite language_at_start, (takeWhile_run _ _ _ Hw Hp).
    destruct l as [|a l]; [now elim Hl | reflexivity].
  - assert (IH' := IH (fun u w Huw Hlt =>
        Hfirst (b :: u) w (f_equal (cons b) Huw) (proj1 (Nat.succ_lt_mono _ _) Hlt))).
    destruct (startsWith (lit "language-")
                ((b :: pre) ++ lit "language-" ++ l ++ post)) as [x'|] eqn:E;
      [|exact IH'].
    apply startsWith_app in E.
    assert (Hx := Hfirst [] x' E (Nat.lt_0_succ _)).
    destruct x' as [|c x']; [exact IH'|].
    cbn [takeWhile]. rewrite Hx. exact IH'.
Qed.

Lemma language_complete pre a post :
  is_word a = true ->
  language (Some (pre ++ lit "language-" ++ a :: post)) <> None.
Proof.
  intros Ha. unfold language. induction pre as [|b pre IH];
    rewrite exec_eq, language_here.
  - change (startsWith (lit "language-") ([] ++ lit "language-" ++ a :: post))
      with (Some (a :: post)).
    cbn [takeWhile]. rewrite Ha. simpl. discriminate.
  - destruct (startsWith _ _) as [x'|]; [|exact IH].
    destruct (takeWhile is_word x'); [exact IH | simpl; discriminate].
Qed.

Lemma replace_closing_last body :
  includes (chr "]") body = false ->
  replace_first closing (body ++ closing) = body.
Proof.
  induction body as [|a body IH]; [reflexivity|].
  unfold includes. simpl existsb. intros H. apply orb_false_iff in H.
  destruct H as [Ha Hb].
  change ((a :: body) ++ closing) with (a :: (body ++ closing)).
  rewrite replace_closing_cons.
  unfold chr, cu_eqb in Ha. simpl in Ha. rewrite N.eqb_sym in Ha.
  unfold cu_eqb. rewrite Ha. f_equal. now apply IH.
Qed.

End BlockFacts.

(** ** Further properties of the front end *)

Section FrontEndProperties.

Import JS Regex Citations Staged Scan Grouping Examples Chips.
Import Replace Format FormatSpec CodeBlock.





(** X2: a citation "[Source: name]" whose name has no white space at its
    ends, no comma, and does not end with a digit or a closing
    parenthesis, is parsed into the name without a page. *)
Theorem wire_round_trip_no_page (name : jsstring) :
  trimStart name = name -> trimEnd name = name ->
  includes is_comma name = false ->
  (forall u c, name = u ++ [c] -> is_digit c = false /\ chr ")" c = false) ->
  parse (lit "[Source: " ++ name ++ lit "]") = (name, None).
Proof.
  intros Hs He Hc Hl. rewrite parse_char. cbv zeta.
  assert (Ec : cleanSource (lit "[Source: " ++ name ++ lit "]") = name)
    by exact (@cleanSource_wrapped [32%N] name eq_refl Hs He).
  rewrite Ec.
  now rewrite (@find_indicator_none name Hl), Hc.
Qed.

Lemma wire_round_trip_no_page_witness :
  parse (lit "[Source: a.b]") = (lit "a.b", None).
Proof.
  apply (@wire_round_trip_no_page (lit "a.b")); try reflexivity.
  intros u c E.
  assert (Ec : c = 98%N).
  { apply (f_equal (@rev cu)) in E. rewrite rev_app_distr in E.
    simpl in E. now injection E as <- _. }
  subst c. split; reflexivity.
Defined.

(** X3: for every source string, with or without line terminators, the
    callback takes as file name the trimmed last line of the text in
    front of the longest page indicator that ends the cleaned string, and
    its number as page; without an indicator, the trimmed text in front
    of the first comma, or else the cleaned string. *)
Theorem parse_every_string (sourceString : jsstring) :
  parse sourceString =
  match find_indicator (cleanSource sourceString) with
  | Some (pre, n) => (trim (last_line pre), Some n)
  | None =>
      if includes is_comma (cleanSource sourceString)
      then (trim (before_comma (cleanSource sourceString)), None)
      else (cleanSource sourceString, None)
  end.
Proof. exact (parse_char sourceString). Qed.

(** X4: a page that the pattern captures is a string of one or more
    digits; so the test [if (page)] holds for every captured page, also
    for "0". *)
Theorem page_is_digits (sourceString p : jsstring) :
  pageOf sourceString = Some p ->
  p <> [] /\ forallb is_digit p = true
  /\ truthy_page (pageOf sourceString) = Some p.
Proof.
  intros H. rewrite page_truthy, H. unfold pageOf in H.
  rewrite parse_char in H. cbv zeta in H.
  destruct (find_indicator (cleanSource sourceString)) as [[pre n]|] eqn:E.
  - simpl in H. injection H as ->.
    destruct (find_indicator_split _ E) as (t & _ & Ht).
    destruct (indicator_digits _ Ht). auto.
  - destruct (includes is_comma (cleanSource sourceString)); discriminate.
Qed.

Lemma page_is_digits_witness :
  lit "0" <> [] /\ forallb is_digit (lit "0") = true
  /\ truthy_page (pageOf (lit "[Source: a, Page 0]")) = Some (lit "0").
Proof.
  apply (@page_is_digits (lit "[Source: a, Page 0]") (lit "0")). reflexivity.
Defined.

Lemma In_cards o c :
  In c (cards o) <-> exists k, In k (Object_keys o) /\ c = render_card o k.
Proof.
  unfold cards. rewrite in_map_iff. split; intros (k & H1 & H2); exists k; auto.
Qed.

(** X5: when the loop completes, the page list of a card holds exactly
    the pages that the source strings of its file name carry: no page is
    lost and none is made up. *)
Theorem card_pages_exact (sources : list jsstring) (o : object) :
  groupedSources sources = Some o ->
  forall c, In c (cards o) ->
  forall p,
    In p (card_pages c) <->
    exists s, In s sources /\ keyOf s = card_filename c /\ pageOf s = Some p.
Proof.
  intros Hg c Hc p. apply In_cards in Hc. destruct Hc as (k & _ & ->).
  simpl. split.
  - intros H. apply (Permutation_in _ (sort_pages_perm _)) in H.
    apply (forEach_pages _ _ Hg) in H. destruct H as [[]|(s & Hs & Hk & Hp)].
    exists s. rewrite page_truthy in Hp. auto.
  - intros (s & Hs & Hk & Hp).
    apply (Permutation_in _ (Permutation_sym (sort_pages_perm _))).
    apply (forEach_pages _ _ Hg). right. exists s.
    rewrite page_truthy. auto.
Qed.

Lemma card_pages_exact_witness :
  groupedSources path_sources = Some path_object
  /\ (In (lit "2") (card_pages (render_card path_object (lit "report.pdf")))
      <-> exists s, In s path_sources /\ keyOf s = lit "report.pdf"
                    /\ pageOf s = Some (lit "2")).
Proof.
  split; [reflexivity|].
  apply (@card_pages_exact path_sources path_object eq_refl
           (render_card path_object (lit "report.pdf"))).
  left. reflexivity.
Defined.

(** X6: the label of a card is "Source Document" exactly when no source
    string of its file name carries a page; otherwise it is "Page "
    followed by the sorted pages, joined by ", ". *)
Theorem card_label_source_document (sources : list jsstring) (o : object) :
  groupedSources sources = Some o ->
  forall c, In c (cards o) ->
  (card_label c = lit "Source Document" <->
   forall s, In s sources -> keyOf s = card_filename c -> pageOf s = None)
  /\ (card_label c <> lit "Source Document" ->
      card_label c = lit "Page " ++ join (lit ", ") (card_pages c)).
Proof.
  intros Hg c Hc. pose proof (@card_pages_exact sources o Hg c Hc) as Hex.
  apply In_cards in Hc. destruct Hc as (k & _ & ->). simpl in *.
  destruct (sort_pages (pages_of o k)) as [|p ps] eqn:E.
  - split; [|congruence]. split; [|reflexivity].
    intros _ s Hs Hk. destruct (pageOf s) as [q|] eqn:Eq; [|reflexivity].
    destruct (proj2 (Hex q)). now exists s.
  - split; [|reflexivity]. split; [discriminate|].
    intros H. destruct (proj1 (Hex p) (or_introl eq_refl)) as (s & Hs & Hk & Hp).
    rewrite (H s Hs Hk) in Hp. discriminate.
Qed.

Lemma card_label_source_document_witness :
  groupedSources path_sources = Some path_object
  /\ card_label (render_card path_object (lit "report.pdf")) = lit "Page 2".
Proof.
  split; [reflexivity|].
  refine (proj2 (@card_label_source_document path_sources path_object eq_refl
                   (render_card path_object (lit "report.pdf")) _) _).
  - left. reflexivity.
  - discriminate.
Defined.

(** X7: the loop throws its TypeError exactly when some source string
    carries a page and has a file name that the object inherits from
    [Object.prototype]; on every other input it completes. *)
Theorem grouping_throws_iff (sources : list jsstring) :
  groupedSources sources = None <->
  exists s, In s sources /\ inherited (keyOf s) = true /\ pageOf s <> None.
Proof.
  unfold groupedSources. rewrite (forEach_none sources [] eq_refl).
  split; intros (s & Hs & Hi & Hp); exists s; rewrite page_truthy in *; auto.
Qed.

(** X8: when the loop completes, the count of "Verified References" is
    the number of distinct keys that are not inherited names, and it is
    at most the number of source strings. *)
Theorem reference_count_bound (sources : list jsstring) (o : object) :
  groupedSources sources = Some o ->
  uniqueFileCount o
  = List.length (filter (fun k => negb (inherited k)) (uniq (map keyOf sources)))
  /\ (uniqueFileCount o <= List.length sources)%nat.
Proof. exact (@uniqueFileCount_bound sources o). Qed.

Lemma reference_count_bound_witness :
  uniqueFileCount path_object = 2%nat
  /\ (uniqueFileCount path_object <= List.length path_sources)%nat.
Proof.
  exact (@reference_count_bound path_sources path_object eq_refl).
Defined.

(** X9: when the loop completes, no two cards have the same file name,
    and the page strings of every card are pairwise distinct and in
    ascending order of their numeric value. *)
Theorem cards_distinct_sorted (sources : list jsstring) (o : object) :
  groupedSources sources = Some o ->
  NoDup (map card_filename (cards o))
  /\ Forall (fun c => NoDup (card_pages c)
                      /\ StronglySorted number_le (card_pages c)) (cards o).
Proof. exact (@cards_sorted_distinct sources o). Qed.

Lemma cards_distinct_sorted_witness :
  NoDup (map card_filename (cards path_object))
  /\ Forall (fun c => NoDup (card_pages c)
                      /\ StronglySorted number_le (card_pages c))
       (cards path_object).
Proof.
  exact (@cards_distinct_sorted path_sources path_object eq_refl).
Defined.

(** X10: for a source string "[Source: body]" whose body has no "]", the
    chip shows the body; when the body has no white space at its ends,
    the card grouping cleans the string to the same text. *)
Theorem chip_label_well_formed (body : jsstring) :
  includes (chr "]") body = false ->
  chipLabel (opening ++ body ++ closing) = body
  /\ (trimStart body = body -> trimEnd body = body ->
      cleanSource (opening ++ body ++ closing) = body).
Proof.
  intros H. split.
  - unfold chipLabel. rewrite (replace_first_eq opening).
    change (startsWith opening (opening ++ body ++ closing))
      with (Some (body ++ closing)).
    now apply replace_closing_last.
  - intros Hs He. exact (@cleanSource_wrapped [32%N] body eq_refl Hs He).
Qed.

Lemma chip_label_well_formed_witness :
  chipLabel (lit "[Source: a.pdf, Page 2]") = lit "a.pdf, Page 2"
  /\ cleanSource (lit "[Source: a.pdf, Page 2]") = lit "a.pdf, Page 2".
Proof.
  destruct (@chip_label_well_formed (lit "a.pdf, Page 2") eq_refl) as [H1 H2].
  split; [exact H1 | exact (H2 eq_refl eq_refl)].
Defined.

(** X11: [formatContent] changes white space only, apart from turning a
    bullet into "-": the code units that are not white space come out in
    the same order, none added and none dropped, and each of them is the
    code unit of the content at that place, or "-" where the content has
    a bullet; no other code unit is changed, and "-" never becomes a
    bullet. *)
Theorem format_keeps_shown_text (content : jsstring) :
  Forall2 kept (visible content) (visible (formatContent (Some content))).
Proof.
  destruct content as [|a s]; [constructor|]. apply format_steps_kept.
Qed.

(** X12: the result of [formatContent] has no white space at its ends and
    never three line feeds in a row. *)
Theorem format_result_normal (content : option jsstring) :
  trim (formatContent content) = formatContent content
  /\ no3 (formatContent content) = true.
Proof.
  destruct content as [[|a s]|]; try (split; reflexivity).
  unfold formatContent, format_steps. cbv zeta. split.
  - apply trim_idem.
  - apply no3_trim.
    exact (proj1 (@replace_newlines3_no3 _ 0%nat None (or_introl eq_refl))).
Qed.

(** X13: a text without "*", "#", "-", bullet and digit, and without
    three line feeds in a row, is only trimmed by [formatContent]. *)
Theorem format_plain_text (content : jsstring) :
  free_of is_markup content = true -> no3 content = true ->
  formatContent (Some content) = trim content.
Proof.
  intros Hm Hn. destruct content as [|a s]; [reflexivity|].
  now apply format_steps_plain.
Qed.

Lemma format_plain_text_witness :
  formatContent (Some (lit " The answer is yes. "))
  = lit "The answer is yes.".
Proof.
  apply (@format_plain_text (lit " The answer is yes. ")); reflexivity.
Defined.

(** X14: the language of a code block is the longest run of word
    characters behind the first text "language-" of the class name that
    has a word character behind it: the language is exactly that run (not
    empty, word characters only, no word character behind it, and no
    earlier "language-" with a word character behind it), and there is no
    language exactly when no "language-" of the class name has a word
    character behind it. *)
Theorem language_label (className : jsstring) :
  (forall l,
      language (Some className) = Some l <->
      exists pre post,
        className = pre ++ lit "language-" ++ l ++ post
        /\ l <> [] /\ forallb is_word l = true
        /\ match post with c :: _ => is_word c = false | [] => True end
        /\ forall u w,
             className = u ++ lit "language-" ++ w ->
             (List.length u < List.length pre)%nat ->
             match w with a :: _ => is_word a = false | [] => True end)
  /\ (language (Some className) = None <->
      forall u w,
        className = u ++ lit "language-" ++ w ->
        match w with a :: _ => is_word a = false | [] => True end).
Proof.
  split; [intros l|]; split.
  - apply language_sound.
  - intros (pre & post & -> & Hl & Hw & Hp & Hfirst).
    now apply language_first.
  - intros Hn u [|a w] Hc; [exact I|].
    destruct (is_word a) eqn:Ha; [|reflexivity].
    rewrite Hc in Hn. now elim (@language_complete u a w Ha).
  - intros Hall. destruct (language (Some className)) as [l|] eqn:E;
      [|reflexivity].
    destruct (language_sound _ E) as (pre & post & Hc & Hl & Hw & _).
    specialize (Hall pre (l ++ post) Hc).
    destruct l as [|a l]; [now elim Hl|].
    simpl in Hall, Hw. rewrite Hall in Hw. discriminate Hw.
Qed.

Lemma language_label_witness :
  exists pre post,
    lit "hljs language-js language-ts"
    = pre ++ lit "language-" ++ lit "js" ++ post
    /\ lit "js" <> [] /\ forallb is_word (lit "js") = true
    /\ match post with c :: _ => is_word c = false | [] => True end
    /\ forall u w,
         lit "hljs language-js language-ts" = u ++ lit "language-" ++ w ->
         (List.length u < List.length pre)%nat ->
         match w with a :: _ => is_word a = false | [] => True end.
Proof.
  exact (proj1 (proj1 (@language_label (lit "hljs language-js language-ts"))
                  (lit "js")) eq_refl).
Defined.

(** X15: the preview of the analysed context has at most 503 code units,
    begins with the first 500 code units of the context, and is the
    context itself when that has at most 500. *)
Theorem context_preview_bound (context : jsstring) :
  (List.length (contextPreview context) <= 503)%nat
  /\ firstn 500 (contextPreview context) = firstn 500 context
  /\ ((List.length context <= 500)%nat -> contextPreview context = context).
Proof.
  unfold contextPreview.
  destruct (Nat.ltb_spec 500 (List.length context)) as [Hlt|Hge].
  - assert (Hl : List.length (firstn 500 context) = 500%nat)
      by (apply firstn_length_le; lia).
    repeat split.
    + rewrite length_app, Hl. simpl. lia.
    + rewrite <- Hl at 1. apply firstn_exact.
    + lia.
  - repeat split. lia.
Qed.

Lemma context_preview_bound_witness :
  (List.length (lit "short") <= 500)%nat
  /\ contextPreview (lit "short") = lit "short".
Proof.
  split; [simpl; lia|].
  apply (proj2 (proj2 (@context_preview_bound (lit "short")))). simpl. lia.
Defined.

End FrontEndProperties.
